(** * live_score: the measure engine of [src/js/measure.js]

    A shallow embedding of [live_score.Measure] and a verification of the
    properties its specification states: the tick model, the beat-level
    analyzer, the rest filler, the quantizer and the insertion/removal
    engine.

    JavaScript numbers that hold tick counts and note-length encodings are
    integers here ([Z]); the fractional position of a request is an exact
    rational ([Q]).  Exceptions are values of [exn]; a method of the measure
    is a function from the measure to an outcome and the measure it leaves
    behind, so that the mutations made before a [throw] stay visible. *)

From Stdlib Require Import ZArith QArith Qabs Lia Lqa Sorted.
From stdpp Require Import base tactics option list.

Local Open Scope Z_scope.

(** ** Outcomes *)

(** [TypeError] and [ReferenceError] are the JavaScript exceptions the code
    can raise (a property read on [undefined], a read of an undeclared
    variable).  [NullRestLength] stands for the point where
    [optimal_rest_length] has returned [null] and the caller hands it to
    [note_length_to_ticks], which the tick table does not define.
    [OutOfFuel] marks a loop of the model that did not finish within its
    fuel. *)
Inductive exn := TypeError | ReferenceError | NullRestLength | OutOfFuel.

Inductive result (A : Type) :=
| Ok (a : A)
| Throw (e : exn).
Arguments Ok {A} a.
Arguments Throw {A} e.

(** ** Helpers for JavaScript arrays and numbers *)

(** [a[i]] for an integer [i]: [None] is [undefined]. *)
Definition js_index {A} (a : list A) (i : Z) : option A :=
  if i <? 0 then None else a !! Z.to_nat i.

(** [a.splice(start, deleteCount, items...)]: a negative [start] counts from
    the end, and [start] is clamped to the array. *)
Definition js_splice {A} (a : list A) (start : Z) (deleteCount : nat)
    (items : list A) : list A :=
  let len := Z.of_nat (length a) in
  let s := Z.to_nat (if start <? 0 then Z.max (len + start) 0
                     else Z.min start len) in
  take s a ++ items ++ drop (s + deleteCount) a.

(** [a % b === 0] on integers: [%] is the truncated remainder, and
    [a % 0] is [NaN]. *)
Definition js_rem_is_zero (a b : Z) : bool :=
  if b =? 0 then false else Z.rem a b =? 0.

Definition Qltb (x y : Q) : bool := negb (Qle_bool y x).

(** ** Note kinds and requests *)

Inductive note_kind := rest_type | note_type.

(** Modelled from the spec: the request struct of [structs.js], which is not
    among the sources.  [measure.js] reads the fields [pitch], [note_length],
    [quantization], [x_position] and [quantized_tick_position]; the last one
    is written by [add_note] and is [undefined] ([None]) on a request that
    never went through it. *)
Record note_info := mk_note_info {
  pitch : Z;
  note_length : Z;
  quantization : Z;
  x_position : Q;
  quantized_tick_position : option Z
}.

Definition set_quantized_tick_position (ni : note_info) (t : Z) : note_info :=
  {| pitch := pitch ni; note_length := note_length ni;
     quantization := quantization ni; x_position := x_position ni;
     quantized_tick_position := Some t |}.

(** ** The [live_score] namespace *)

(** What [live_score.js] provides and the sources do not contain: the
    representation of a pitch, [live_score.rest_pitch],
    [live_score.translate_midi_number_to_pitch], the values of
    [live_score.note_lengths] in the order [for ... in] enumerates them, and
    [live_score.note_length_to_ticks].  The measure engine is verified for
    any such namespace. *)
Class LiveScore := {
  pitch_t : Type;
  pitch_t_eq_dec :: EqDecision pitch_t;
  rest_pitch : pitch_t;
  translate_midi_number_to_pitch : Z → pitch_t;
  note_lengths : list Z;
  note_length_to_ticks : Z → Z
}.

Section model.

Context `{live_score : LiveScore}.

(** ** Rhythmic events *)

(** Modelled from the spec: the [live_score.Note] object of [note.js], which
    is not among the sources.  An event carries a symbolic length and is a
    rest or a note with a set of pitches; [new live_score.Note(pitch, length,
    type)] builds one. *)
Record Note := mk_Note {
  Note_pitches : list pitch_t;
  Note_length : Z;
  Note_type : note_kind
}.

Definition new_Note (p : pitch_t) (len : Z) (ty : note_kind) : Note :=
  match ty with
  | rest_type => mk_Note [] len rest_type
  | note_type => mk_Note [p] len note_type
  end.

(** Modelled from the spec: [Note.prototype.is_note] and [is_rest], the
    predicates that tell the two variants apart. *)
Definition Note_is_note (n : Note) : bool :=
  match Note_type n with note_type => true | rest_type => false end.

Definition Note_is_rest (n : Note) : bool :=
  match Note_type n with rest_type => true | note_type => false end.

(** Modelled from the spec: [Note.prototype.add_note], which merges the
    pitch of the request into the pitch set of the note. *)
Definition Note_add_note (ni : note_info) (n : Note) : Note :=
  let p := translate_midi_number_to_pitch (pitch ni) in
  if decide (p ∈ Note_pitches n) then n
  else mk_Note (Note_pitches n ++ [p]) (Note_length n) (Note_type n).

(** Modelled from the spec: [Note.prototype.remove_note], which removes the
    pitch of the request from the pitch set and tells whether the set is now
    empty. *)
Definition Note_remove_note (ni : note_info) (n : Note) : bool * Note :=
  let p := translate_midi_number_to_pitch (pitch ni) in
  let ps := filter (λ q, q ≠ p) (Note_pitches n) in
  (bool_decide (ps = []), mk_Note ps (Note_length n) (Note_type n)).

(** Modelled from the spec: [Note.prototype.make_rest], which turns a note
    whose pitches are gone into a rest of the same length. *)
Definition Note_make_rest (n : Note) : Note :=
  new_Note rest_pitch (Note_length n) rest_type.

(** The spec's two variants. *)
Definition Rest (len : Z) : Note := new_Note rest_pitch len rest_type.
Definition Chord (len : Z) (ps : list pitch_t) : Note := mk_Note ps len note_type.

(** ** The measure *)

Record Measure := mk_Measure {
  num_beats : Z;
  beat_value : Z;
  notes : list Note;
  num_ticks : Z
}.

Definition set_notes (this : Measure) (ns : list Note) : Measure :=
  {| num_beats := num_beats this; beat_value := beat_value this;
     notes := ns; num_ticks := num_ticks this |}.

(** The ordered sum of the events' tick lengths. *)
Definition sum_ticks (ns : list Note) : Z :=
  foldr (λ n acc, note_length_to_ticks (Note_length n) + acc) 0 ns.

(** The tick at which the event of index [i] starts: the prefix sum. *)
Definition start_tick (ns : list Note) (i : nat) : Z := sum_ticks (take i ns).

(** *** calculate_beat_level *)

Definition beat_level_step (this : Measure) (total_ticks : Z)
    (beat_level note_length : Z) : Z :=
  let ticks := note_length_to_ticks note_length in
  if js_rem_is_zero total_ticks ticks
     && (note_length <? beat_level)
     && (ticks <=? num_ticks this)
  then note_length else beat_level.

Definition calculate_beat_level (this : Measure) (total_ticks : Z) : Z :=
  fold_left (beat_level_step this total_ticks) note_lengths (num_ticks this).

(** *** optimal_rest_length *)

Definition rest_length_step (beat_position num_ticks_arg : Z)
    (acc : Z * option Z) (note_length : Z) : Z * option Z :=
  let '(min_tick_difference, best_fit_note) := acc in
  let note_ticks := note_length_to_ticks note_length in
  let tick_difference := num_ticks_arg - note_ticks in
  if (note_length >=? beat_position)
     && (tick_difference <? min_tick_difference)
     && (tick_difference >=? 0)
  then (tick_difference, Some note_length)
  else (min_tick_difference, best_fit_note).

(** [None] is the [null] the function returns when no length fits. *)
Definition optimal_rest_length (this : Measure) (beat_position num_ticks_arg : Z)
    : option Z :=
  snd (fold_left (rest_length_step beat_position num_ticks_arg) note_lengths
         (num_ticks this, None)).

(** *** fill_space_with_rests *)

(** The [while] loop.  [ticks_so_far] is never advanced by the source, so the
    beat level is the one of [start_tick] at every turn. *)
Fixpoint fill_loop (this : Measure) (fuel : nat) (rests : list Note)
    (ticks_so_far ticks_left : Z) : result (list Note) :=
  if ticks_left >? 0 then
    match fuel with
    | O => Throw OutOfFuel
    | S fuel' =>
        let beat_level := calculate_beat_level this ticks_so_far in
        match optimal_rest_length this beat_level ticks_left with
        | None => Throw NullRestLength
        | Some rest_length =>
            fill_loop this fuel'
              (rests ++ [new_Note rest_pitch rest_length rest_type])
              ticks_so_far
              (ticks_left - note_length_to_ticks rest_length)
        end
    end
  else Ok rests.

Definition fill_space_with_rests (this : Measure) (start_tick end_tick : Z)
    : result (list Note) :=
  fill_loop this (Z.to_nat (end_tick - start_tick)) [] start_tick
    (end_tick - start_tick).

(** ** Methods that mutate the measure *)

(** A method runs on [this] and leaves an outcome and the measure as it is
    when the method returns or throws. *)
Definition meth (A : Type) : Type := Measure → result A * Measure.

Definition ret {A} (a : A) : meth A := λ this, (Ok a, this).

Definition throw {A} (e : exn) : meth A := λ this, (Throw e, this).

Definition bind {A B} (c : meth A) (k : A → meth B) : meth B :=
  λ this,
    match c this with
    | (Ok a, this') => k a this'
    | (Throw e, this') => (Throw e, this')
    end.

Notation "'do' x <- c ; k" := (bind c (λ x, k))
  (at level 10, x name, c at level 100, k at level 200, only parsing).
Notation "'run' c ; k" := (bind c (λ _, k))
  (at level 10, c at level 100, k at level 200, only parsing).

(** [for (i = rests.length - 1; i >= 0; i--) notes.splice(index, 0, rests[i])] *)
Definition splice_rests (index : Z) (rests : list Note) : meth unit :=
  λ this,
    (Ok tt,
     set_notes this (foldr (λ r a, js_splice a index 0 [r]) (notes this) rests)).

(** *** remove_rest *)

Definition remove_rest (rest_index : Z) : meth (option Note) :=
  λ this,
    (Ok (js_index (notes this) rest_index),
     set_notes this (js_splice (notes this) rest_index 1 [])).

(** *** insert_rests_before_note *)

(** A request without a quantized tick makes the interval bounds [NaN]; the
    [while] loop of the filler then does not run and no rest is inserted. *)
Definition insert_rests_before_note (current_position note_to_split_index : Z)
    (note_to_split : option Note) (ni : note_info) : meth unit :=
  match note_to_split with
  | None => throw TypeError
  | Some nts =>
      let start_position :=
        current_position - note_length_to_ticks (Note_length nts) in
      match quantized_tick_position ni with
      | None => ret tt
      | Some end_position =>
          λ this,
            match fill_space_with_rests this start_position end_position with
            | Throw e => (Throw e, this)
            | Ok rests => splice_rests note_to_split_index rests this
            end
      end
  end.

(** *** insert_rests_after_note *)

Definition insert_rests_after_note (current_position note_to_split_index : Z)
    (ni : note_info) : meth unit :=
  match quantized_tick_position ni with
  | None => ret tt
  | Some t =>
      let start_position := t + note_length_to_ticks (note_length ni) in
      let end_position := current_position in
      λ this,
        match fill_space_with_rests this start_position end_position with
        | Throw e => (Throw e, this)
        | Ok rests => splice_rests note_to_split_index rests this
        end
  end.

(** *** insert_new_note *)

Definition insert_new_note (note_to_split_index : Z) (ni : note_info)
    : meth unit :=
  λ this,
    let pitch := translate_midi_number_to_pitch (pitch ni) in
    let new_note := new_Note pitch (note_length ni) note_type in
    (Ok tt, set_notes this (js_splice (notes this) note_to_split_index 0 [new_note])).

(** *** remove_rest_and_insert_note *)

Definition remove_rest_and_insert_note (current_position note_to_split_index : Z)
    (ni : note_info) : meth unit :=
  do note_to_split <- remove_rest note_to_split_index;
  match note_to_split with
  | None => throw TypeError
  | Some nts =>
      let end_of_rest :=
        current_position + note_length_to_ticks (Note_length nts) in
      run insert_rests_after_note end_of_rest note_to_split_index ni;
      insert_new_note note_to_split_index ni
  end.

(** *** split_rest_and_insert_note *)

Definition split_rest_and_insert_note (current_position note_to_split_index : Z)
    (ni : note_info) : meth unit :=
  do note_to_split <- remove_rest note_to_split_index;
  run insert_rests_after_note current_position note_to_split_index ni;
  run insert_new_note note_to_split_index ni;
  insert_rests_before_note current_position note_to_split_index note_to_split ni.

(** *** place_note_in_measure *)

(** [current_position === note_position], where the position of the request
    may be [undefined]. *)
Definition at_position (current_position : Z) (note_position : option Z) : bool :=
  match note_position with
  | Some p => current_position =? p
  | None => false
  end.

(** [current_position > note_position]. *)
Definition past_position (current_position : Z) (note_position : option Z) : bool :=
  match note_position with
  | Some p => current_position >? p
  | None => false
  end.

(** The [for] loop, entered at index [i].  The loop may look one index past
    the last event; [this.notes[i]] is then [undefined] and any property read
    on it throws.  A branch that sets [note_added] ends the loop.

    The source tests, in this order, [at && is_note], [past], [at && is_rest]
    and otherwise advances; [&&] reads [this.notes[i]] only when
    [current_position === note_position].  Here the test of the position
    comes first and the tests on the event follow in the source's order. *)
Fixpoint place_loop (fuel : nat) (ni : note_info) (i current_position : Z)
    : meth unit :=
  λ this,
    if negb (i <=? Z.of_nat (length (notes this))) then (Ok tt, this)
    else
      match fuel with
      | O => (Throw OutOfFuel, this)
      | S fuel' =>
          let note_position := quantized_tick_position ni in
          let advance :=
            match js_index (notes this) i with
            | None => (Throw TypeError, this)
            | Some n =>
                place_loop fuel' ni (i + 1)
                  (current_position + note_length_to_ticks (Note_length n)) this
            end in
          if at_position current_position note_position then
            match js_index (notes this) i with
            | None => (Throw TypeError, this)
            | Some n =>
                if Note_is_note n then
                  (Ok tt,
                   set_notes this (<[Z.to_nat i := Note_add_note ni n]> (notes this)))
                else if past_position current_position note_position then
                  split_rest_and_insert_note current_position (i - 1) ni this
                else if Note_is_rest n then
                  remove_rest_and_insert_note current_position i ni this
                else advance
            end
          else if past_position current_position note_position then
            split_rest_and_insert_note current_position (i - 1) ni this
          else advance
      end.

Definition place_note_in_measure (ni : note_info) : meth unit :=
  λ this, place_loop (S (length (notes this))) ni 0 0 this.

(** *** remove_note_from_measure *)

(** The [for] loop; it yields the index at which a note was found and what
    [Note.remove_note] returned there, or nothing when the loop condition
    ended it. *)
Fixpoint remove_loop (fuel : nat) (ni : note_info) (i current_position : Z)
    : meth (option (Z * bool)) :=
  λ this,
    if negb (i <=? Z.of_nat (length (notes this))) then (Ok None, this)
    else
      match fuel with
      | O => (Throw OutOfFuel, this)
      | S fuel' =>
          let note_position := quantized_tick_position ni in
          let advance :=
            match js_index (notes this) i with
            | None => (Throw TypeError, this)
            | Some n =>
                remove_loop fuel' ni (i + 1)
                  (current_position + note_length_to_ticks (Note_length n)) this
            end in
          if at_position current_position note_position then
            match js_index (notes this) i with
            | None => (Throw TypeError, this)
            | Some n =>
                if Note_is_note n then
                  let '(empty_note, n') := Note_remove_note ni n in
                  (Ok (Some (i, empty_note)),
                   set_notes this (<[Z.to_nat i := n']> (notes this)))
                else advance
            end
          else advance
      end.

Definition remove_note_from_measure (ni : note_info) : meth unit :=
  λ this,
    match remove_loop (S (length (notes this))) ni 0 0 this with
    | (Throw e, this') => (Throw e, this')
    | (Ok None, this') => (Ok tt, this')
    | (Ok (Some (note_index, empty_note)), this') =>
        if empty_note then
          match js_index (notes this') note_index with
          | None => (Throw TypeError, this')
          | Some n =>
              (Ok tt,
               set_notes this'
                 (<[Z.to_nat note_index := Note_make_rest n]> (notes this')))
          end
        else (Ok tt, this')
    end.

(** *** quantize_position *)

(** [i < num_quantized_beats], where [num_quantized_beats] is the quotient
    [num_ticks / quantized_beat_ticks] of JavaScript numbers: not rounded,
    and [Infinity], [NaN] or [-Infinity] when the divisor is 0. *)
Definition below_num_quantized_beats (this : Measure) (quantized_beat_ticks i : Z)
    : bool :=
  if quantized_beat_ticks =? 0 then 0 <? num_ticks this
  else Qltb (inject_Z i)
         (inject_Z (num_ticks this) / inject_Z quantized_beat_ticks).

(** The [for] loop.  It assigns [quantized_ticks_position], a variable the
    function never declares: the assignment reaches a global, here the
    last component. *)
Fixpoint quantize_loop (this : Measure) (fuel : nat)
    (quantized_beat_ticks : Z) (position_in_ticks : Q) (i : Z)
    (min_tick_difference : Q) (quantized_ticks_position : option Z)
    : result (option Z) :=
  if negb (below_num_quantized_beats this quantized_beat_ticks i)
  then Ok quantized_ticks_position
  else
    match fuel with
    | O => Throw OutOfFuel
    | S fuel' =>
        let ticks_before_beat := i * quantized_beat_ticks in
        let tick_difference :=
          Qabs (inject_Z ticks_before_beat - position_in_ticks) in
        if Qltb tick_difference min_tick_difference
        then quantize_loop this fuel' quantized_beat_ticks position_in_ticks
               (i + 1) tick_difference (Some ticks_before_beat)
        else quantize_loop this fuel' quantized_beat_ticks position_in_ticks
               (i + 1) min_tick_difference quantized_ticks_position
    end.

(** The declared local [quantized_tick_position] is seeded and never read;
    what the function returns is the global [quantized_ticks_position], whose
    value before the call is [g] ([None]: never assigned, so that reading it
    is a [ReferenceError]).  The second component is the global after the
    call. *)
Definition quantize_position (this : Measure) (quantization : Z) (position : Q)
    (g : option Z) : result Z * option Z :=
  let quantized_beat_ticks := note_length_to_ticks quantization in
  let num_quantized_beats :=
    (inject_Z (num_ticks this) / inject_Z quantized_beat_ticks)%Q in
  let position_in_ticks := (position * inject_Z (num_ticks this))%Q in
  let '(quantized_tick_position, min_tick_difference) :=
    if negb (quantized_beat_ticks =? 0)
       && Qltb (num_quantized_beats * inject_Z quantized_beat_ticks)
            (inject_Z (num_ticks this))
    then ((num_quantized_beats * inject_Z quantized_beat_ticks)%Q,
          Qabs (inject_Z (num_ticks this) - position_in_ticks))
    else (0%Q, inject_Z (num_ticks this)) in
  match quantize_loop this (S (Z.to_nat (Z.abs (num_ticks this))))
          quantized_beat_ticks position_in_ticks 0 min_tick_difference g with
  | Throw e => (Throw e, g)
  | Ok g' =>
      match g' with
      | Some quantized_ticks_position => (Ok quantized_ticks_position, g')
      | None => (Throw ReferenceError, g')
      end
  end.

(** *** add_note and remove_note *)

(** The outcome, the request as the call leaves it (it stores the quantized
    tick on it), the measure and the global of [quantize_position]. *)
Definition add_note (ni : note_info) (this : Measure) (g : option Z)
    : result bool * note_info * Measure * option Z :=
  match quantize_position this (quantization ni) (x_position ni) g with
  | (Throw e, g') => (Throw e, ni, this, g')
  | (Ok t, g') =>
      let ni' := set_quantized_tick_position ni t in
      match place_note_in_measure ni' this with
      | (Throw e, this') => (Throw e, ni', this', g')
      | (Ok _, this') => (Ok true, ni', this', g')
      end
  end.

Definition remove_note (ni : note_info) : meth bool :=
  run remove_note_from_measure ni;
  ret true.

(** *** The constructor and create_empty_measure *)

Definition create_empty_measure : meth unit :=
  λ this,
    match fill_space_with_rests this 0 (num_ticks this) with
    | Throw e => (Throw e, this)
    | Ok rests => (Ok tt, set_notes this (notes this ++ rests))
    end.

(** [new live_score.Measure({num_beats, beat_value})]. *)
Definition new_Measure (num_beats beat_value : Z) : result unit * Measure :=
  create_empty_measure
    {| num_beats := num_beats; beat_value := beat_value; notes := [];
       num_ticks := num_beats * note_length_to_ticks beat_value |}.

(** ** The tick table, the invariant and the caller contract *)

(** A table is usable when it has a smallest unit: a supported length whose
    tick count divides the tick count of every supported length, all tick
    counts being positive. *)
Definition table_ok (unit : Z) : Prop :=
  unit ∈ note_lengths ∧
  ∀ d, d ∈ note_lengths →
       0 < note_length_to_ticks d ∧
       (note_length_to_ticks unit | note_length_to_ticks d).

(** Events whose lengths have positive tick counts. *)
Definition positive_ticks (ns : list Note) : Prop :=
  Forall (λ e, 0 < note_length_to_ticks (Note_length e)) ns.

(** The duration invariant of the measure, and the requirement that every
    event has a supported length. *)
Definition duration_invariant (this : Measure) : Prop :=
  sum_ticks (notes this) = num_ticks this.

Definition lengths_supported (ns : list Note) : Prop :=
  Forall (λ e, Note_length e ∈ note_lengths) ns.

(** What every measure obtained through the public calls satisfies. *)
Definition measure_ok (this : Measure) : Prop :=
  duration_invariant this ∧ lengths_supported (notes this).

(** What [optimal_rest_length] accepts: a length no longer than the ceiling
    that fits in the span and leaves less than a measure. *)
Definition rest_fits (this : Measure) (beat_position num_ticks_arg d : Z) : Prop :=
  beat_position ≤ d ∧
  0 ≤ num_ticks_arg - note_length_to_ticks d ∧
  num_ticks_arg - note_length_to_ticks d < num_ticks this.

(** The state of the search after a prefix [l] of the table. *)
Definition search_state (this : Measure) (c r : Z) (l : list Z)
    (acc : Z * option Z) : Prop :=
  match acc.2 with
  | None =>
      acc.1 = num_ticks this ∧ ∀ d, d ∈ l → ¬ rest_fits this c r d
  | Some d =>
      acc.1 = r - note_length_to_ticks d ∧
      ∃ i : nat,
        l !! i = Some d ∧ rest_fits this c r d ∧
        ∀ (j : nat) d', l !! j = Some d' → rest_fits this c r d' →
          r - note_length_to_ticks d ≤ r - note_length_to_ticks d' ∧
          ((j < i)%nat → r - note_length_to_ticks d < r - note_length_to_ticks d')
  end.

(** A tick the loop may hold: a multiple of the step inside the measure. *)
Definition candidate_tick (this : Measure) (q v : Z) : Prop :=
  0 ≤ v < num_ticks this ∧ (q | v).

(** The event in which tick [t] falls, with its start tick, scanning from an
    event that starts at [cur]. *)
Fixpoint event_at (ns : list Note) (cur t : Z) : option (Z * Note) :=
  match ns with
  | [] => None
  | e :: ns' =>
      let next := cur + note_length_to_ticks (Note_length e) in
      if t <? next then Some (cur, e) else event_at ns' next t
  end.

(** The note an [add_note] request creates. *)
Definition placed_note (ni : note_info) : Note :=
  new_Note (translate_midi_number_to_pitch (pitch ni)) (note_length ni) note_type.

(** The new note fits at tick [t]: it is merged into a note that starts at
    [t], or it ends no later than the event in which [t] falls. *)
Definition note_fits (this : Measure) (t len : Z) : bool :=
  match event_at (notes this) 0 t with
  | None => false
  | Some (s, e) =>
      ((s =? t) && Note_is_note e)
      || (t + note_length_to_ticks len <=? s + note_length_to_ticks (Note_length e))
  end.

(** The contract of an [add_note] request: a position in [0, 1), a supported
    quantization and note length, and a note that fits at the quantized
    tick. *)
Definition add_contract (this : Measure) (g : option Z) (ni : note_info) : Prop :=
  (0 <= x_position ni)%Q ∧ (x_position ni < 1)%Q ∧
  quantization ni ∈ note_lengths ∧
  note_length ni ∈ note_lengths ∧
  ∃ t g', quantize_position this (quantization ni) (x_position ni) g = (Ok t, g')
          ∧ note_fits this t (note_length ni) = true.

(** The measures a caller can obtain: a freshly constructed one, and the one
    left by an [add_note] that meets the contract or by any [remove_note]. *)
Inductive reachable : Measure → Prop :=
| reachable_new nb bv r m :
    0 ≤ nb → bv ∈ note_lengths → new_Measure nb bv = (r, m) → reachable m
| reachable_add m ni g r ni' m' g' :
    reachable m → add_contract m g ni →
    add_note ni m g = (r, ni', m', g') → reachable m'
| reachable_remove m ni r m' :
    reachable m → remove_note ni m = (r, m') → reachable m'.

(** ** Notions used by the further properties *)

(** The distance of candidate [k] of the quantizer, the tick [k * q], from
    the position in ticks. *)
Definition tick_distance (q : Z) (pos : Q) (k : Z) : Q :=
  Qabs (inject_Z (k * q) - pos).


(** What [calculate_beat_level] requires of a length at an offset. *)
Definition on_beat (this : Measure) (total_ticks d : Z) : Prop :=
  js_rem_is_zero total_ticks (note_length_to_ticks d) = true ∧
  note_length_to_ticks d ≤ num_ticks this.

(** Events in order of non-increasing tick length. *)
Definition non_increasing (ns : list Note) : Prop :=
  StronglySorted
    (λ e1 e2, note_length_to_ticks (Note_length e2)
              ≤ note_length_to_ticks (Note_length e1)) ns.

End model.

(** ** The worked scenario *)

(** Modelled from the spec: the table of the worked scenario, whole = 16
    ticks, half = 8, quarter = 4, eighth = 2, sixteenth = 1, the lengths
    encoded by their conventional denominators and enumerated in ascending
    order. *)
Definition whole : Z := 1.
Definition half : Z := 2.
Definition quarter : Z := 4.
Definition eighth : Z := 8.
Definition sixteenth : Z := 16.

Definition scenario_note_lengths : list Z :=
  [whole; half; quarter; eighth; sixteenth].

Definition scenario_ticks (note_length : Z) : Z :=
  if note_length =? whole then 16
  else if note_length =? half then 8
  else if note_length =? quarter then 4
  else if note_length =? eighth then 2
  else if note_length =? sixteenth then 1
  else 0.

(** The scenario's namespace over any representation of pitches. *)
Definition scenario {P : Type} `{EqDecision P} (rest : P) (translate : Z → P)
    : LiveScore :=
  {| pitch_t := P; rest_pitch := rest;
     translate_midi_number_to_pitch := translate;
     note_lengths := scenario_note_lengths;
     note_length_to_ticks := scenario_ticks |}.

(** The scenario with pitches kept as their MIDI numbers. *)
Definition midi : LiveScore := scenario 0 (λ p, p).

(** The time signatures used in the examples. *)
Definition four_four `{LiveScore} : Measure := snd (new_Measure 4 quarter).
Definition three_four `{LiveScore} : Measure := snd (new_Measure 3 quarter).
Definition two_four `{LiveScore} : Measure := snd (new_Measure 2 quarter).

(** The request of the worked scenario: pitch [p] as a quarter note, quantized
    to quarters, at position 0.5. *)
Definition quarter_at_half (p : Z) : note_info :=
  mk_note_info p quarter quarter (1 # 2) None.

(** The measure the worked scenario ends with, for pitch 60. *)
Definition one_note : Measure (live_score := midi) :=
  mk_Measure (live_score := midi) 4 quarter
    [Rest (live_score := midi) half;
     Chord (live_score := midi) quarter [60];
     Rest (live_score := midi) quarter] 16.

(** * Verification *)

Section verification.

Context `{live_score : LiveScore}.

Implicit Types (this : Measure) (ns rests pre post : list Note) (e : Note).

(** ** Sums of tick lengths *)

Lemma sum_ticks_app ns1 ns2 :
  sum_ticks (ns1 ++ ns2) = sum_ticks ns1 + sum_ticks ns2.
Proof.
  induction ns1 as [|e ns1 IH]; simpl; [done|]. rewrite IH. lia.
Qed.

Lemma sum_ticks_cons e ns :
  sum_ticks (e :: ns) = note_length_to_ticks (Note_length e) + sum_ticks ns.
Proof. done. Qed.

Lemma sum_ticks_same_lengths ns1 ns2 :
  Note_length <$> ns1 = Note_length <$> ns2 → sum_ticks ns1 = sum_ticks ns2.
Proof.
  revert ns2. induction ns1 as [|e ns1 IH]; intros [|e' ns2] Heq;
    simplify_eq/=; [done|].
  f_equal; [congruence | auto].
Qed.

Lemma sum_ticks_nonneg ns :
  Forall (λ e, 0 < note_length_to_ticks (Note_length e)) ns → 0 ≤ sum_ticks ns.
Proof. induction 1; simpl; lia. Qed.

Lemma lengths_supported_positive unit ns :
  table_ok unit → lengths_supported ns →
  Forall (λ e, 0 < note_length_to_ticks (Note_length e)) ns.
Proof.
  intros [_ Hok] Hs. eapply Forall_impl; [exact Hs|].
  intros e He. by apply Hok.
Qed.

Lemma lengths_supported_aligned unit ns :
  table_ok unit → lengths_supported ns →
  (note_length_to_ticks unit | sum_ticks ns).
Proof.
  intros [_ Hok] Hs. induction Hs as [|e ns He _ IH]; simpl.
  - apply Z.divide_0_r.
  - apply Z.divide_add_r; [by apply Hok | done].
Qed.

(** ** calculate_beat_level *)

Lemma beat_level_step_le this t b d : beat_level_step this t b d ≤ b.
Proof. unfold beat_level_step. repeat case_match; lia. Qed.

Lemma fold_beat_level_le this t l b :
  fold_left (beat_level_step this t) l b ≤ b.
Proof.
  revert b. induction l as [|d l IH]; intros b; simpl; [lia|].
  etrans; [apply IH | apply beat_level_step_le].
Qed.

Lemma js_rem_is_zero_divide a b :
  0 < b → (b | a) → js_rem_is_zero a b = true.
Proof.
  intros Hb Hdiv. unfold js_rem_is_zero.
  destruct (Z.eqb_spec b 0); [lia|].
  apply Z.eqb_eq. apply Z.rem_divide; [lia | done].
Qed.

(** A supported length whose ticks divide the offset and do not exceed the
    measure bounds the beat level from above. *)
Lemma calculate_beat_level_le this t d :
  d ∈ note_lengths →
  0 < note_length_to_ticks d →
  (note_length_to_ticks d | t) →
  note_length_to_ticks d ≤ num_ticks this →
  calculate_beat_level this t ≤ d.
Proof.
  intros Hin Hpos Hdiv Hle. unfold calculate_beat_level.
  generalize (num_ticks this) at 1 as b.
  induction note_lengths as [|x l IH]; intros b; [by apply elem_of_nil in Hin|].
  apply elem_of_cons in Hin as [<-|Hin]; simpl.
  - etrans; [apply fold_beat_level_le|].
    unfold beat_level_step.
    rewrite js_rem_is_zero_divide by done.
    destruct (Z.ltb_spec d b), (Z.leb_spec (note_length_to_ticks d) (num_ticks this));
      simpl; lia.
  - by apply IH.
Qed.

(** ** optimal_rest_length *)

Lemma search_state_fold this c r l :
  search_state this c r l
    (fold_left (rest_length_step c r) l (num_ticks this, None)).
Proof.
  induction l as [|x l IH] using rev_ind.
  - split; [done|]. intros d Hd. by apply elem_of_nil in Hd.
  - rewrite fold_left_app. simpl.
    destruct (fold_left _ l _) as [m best]. unfold search_state in *. simpl in *.
    unfold rest_fits in *.
    destruct (Z.geb_spec x c), (Z.ltb_spec (r - note_length_to_ticks x) m),
      (Z.geb_spec (r - note_length_to_ticks x) 0); simpl;
      destruct best as [d|]; simpl.
    all: try (destruct IH as (Hm & i & Hi & Hfit & Hmin));
      try (destruct IH as (Hm & Hnone)).
    (* accepted over a previous best, accepted first, or rejected *)
    all: first
      [ (* the new length becomes the best *)
        split; [done|]; exists (length l); split; [by apply list_lookup_middle|];
        split; [lia|]; intros j d' Hj Hd';
        apply lookup_app_Some in Hj as [Hj|[Hlen Hj]];
        [ try (pose proof (Hmin j d' Hj Hd')); try (exfalso; eapply Hnone;
            [by eapply list_elem_of_lookup_2 | done]); lia
        | apply list_lookup_singleton_Some in Hj as [? ->]; lia ]
      | (* the previous best stays *)
        split; [done|]; exists i; split; [by apply lookup_app_l_Some|];
        split; [done|]; intros j d' Hj Hd';
        apply lookup_app_Some in Hj as [Hj|[Hlen Hj]];
        [ by apply Hmin
        | apply list_lookup_singleton_Some in Hj as [? ->];
          apply lookup_lt_Some in Hi; lia ]
      | (* still nothing fits *)
        split; [done|]; intros d Hd; apply elem_of_app in Hd as [Hd|Hd];
        [ by apply Hnone | apply list_elem_of_singleton in Hd as ->; lia ] ].
Qed.

(** C6 (as amended).  [optimal_rest_length] returns the first length, in the
    enumeration order of the table, that minimizes the space left over among
    the supported lengths [d] with [d >= ceiling], [ticks d <= remaining] and
    [remaining - ticks d] smaller than the tick length of the measure; it
    returns [null] exactly when no supported length meets these three
    conditions. *)
Theorem optimal_rest_length_best_fit this (c r : Z) :
  match optimal_rest_length this c r with
  | Some d =>
      ∃ i : nat,
        note_lengths !! i = Some d ∧ rest_fits this c r d ∧
        ∀ (j : nat) d', note_lengths !! j = Some d' → rest_fits this c r d' →
          r - note_length_to_ticks d ≤ r - note_length_to_ticks d' ∧
          ((j < i)%nat → r - note_length_to_ticks d < r - note_length_to_ticks d')
  | None => ∀ d, d ∈ note_lengths → ¬ rest_fits this c r d
  end.
Proof.
  pose proof (search_state_fold this c r note_lengths) as Hs.
  unfold optimal_rest_length, search_state in *.
  destruct (fold_left _ _ _) as [m [d|]]; simpl in *; tauto.
Qed.

(** ** fill_space_with_rests *)

Lemma optimal_rest_length_fits unit this (a r : Z) :
  table_ok unit →
  (note_length_to_ticks unit | a) →
  (note_length_to_ticks unit | r) →
  0 < r → r ≤ num_ticks this →
  ∃ d, optimal_rest_length this (calculate_beat_level this a) r = Some d ∧
       d ∈ note_lengths ∧ 0 ≤ r - note_length_to_ticks d.
Proof.
  intros Hok Ha Hr Hpos Hle.
  pose proof Hok as [Hunit Hall]. destruct (Hall unit Hunit) as [Hupos _].
  assert (note_length_to_ticks unit ≤ r) by (apply Z.divide_pos_le; [lia|done]).
  pose proof (search_state_fold this (calculate_beat_level this a) r note_lengths)
    as Hs.
  unfold optimal_rest_length, search_state in *.
  destruct (fold_left _ _ _) as [m [d|]]; simpl in *.
  - destruct Hs as (_ & i & Hi & (_ & Hd & _) & _).
    exists d. split; [done|]. split; [by eapply list_elem_of_lookup_2 | done].
  - destruct Hs as [_ Hnone]. exfalso. apply (Hnone unit Hunit).
    split; [|lia]. apply calculate_beat_level_le; [done..|lia].
Qed.

Lemma fill_loop_done this fuel rests a r :
  r ≤ 0 → fill_loop this fuel rests a r = Ok rests.
Proof.
  intros Hr. destruct fuel; simpl; destruct (Z.gtb_spec r 0); (done || lia).
Qed.

(** The loop of the filler ends within its fuel and adds rests of supported
    lengths that sum to the span. *)
Lemma fill_loop_ok unit this a :
  table_ok unit →
  (note_length_to_ticks unit | a) →
  ∀ (fuel : nat) rests (r : Z),
    0 ≤ r → r ≤ Z.of_nat fuel → r ≤ num_ticks this →
    (note_length_to_ticks unit | r) →
    ∃ new,
      fill_loop this fuel rests a r = Ok (rests ++ new) ∧
      Forall (λ n, Note_is_rest n = true) new ∧
      lengths_supported new ∧
      sum_ticks new = r.
Proof.
  intros Hok Ha fuel.
  induction fuel as [|fuel IH]; intros rests r Hr0 Hfuel Hle Hdiv.
  - exists []. rewrite fill_loop_done by lia. rewrite app_nil_r.
    repeat split; try constructor. simpl. lia.
  - destruct (decide (r = 0)) as [->|Hne].
    { exists []. rewrite fill_loop_done by lia. rewrite app_nil_r.
      repeat split; try constructor. }
    destruct (optimal_rest_length_fits unit this a r) as (d & Hd & Hin & Hfit);
      [done..|lia|done|].
    destruct Hok as [Hunit Hall]. destruct (Hall d Hin) as [Hdpos Hddiv].
    destruct (IH (rests ++ [new_Note rest_pitch d rest_type])
                (r - note_length_to_ticks d)) as (new & Hnew & Hrest & Hsup & Hsum);
      [lia | lia | lia | by apply Z.divide_sub_r |].
    exists (new_Note rest_pitch d rest_type :: new).
    cbn [fill_loop]. destruct (Z.gtb_spec r 0); [|lia]. rewrite Hd, Hnew.
    rewrite <- app_assoc. split; [done|].
    split; [by constructor|]. split; [by constructor|]. simpl in *. lia.
Qed.

Lemma fill_space_with_rests_ok unit this (a b : Z) :
  table_ok unit →
  (note_length_to_ticks unit | a) →
  (note_length_to_ticks unit | b - a) →
  0 ≤ b - a → b - a ≤ num_ticks this →
  ∃ rests,
    fill_space_with_rests this a b = Ok rests ∧
    Forall (λ n, Note_is_rest n = true) rests ∧
    lengths_supported rests ∧
    sum_ticks rests = b - a.
Proof.
  intros Hok Ha Hdiv H0 Hle.
  destruct (fill_loop_ok unit this a Hok Ha (Z.to_nat (b - a)) [] (b - a))
    as (new & Hnew & ?); [lia..|done|].
  exists new. split; [exact Hnew | done].
Qed.

(** A span that is empty or negative yields no rest. *)
Lemma fill_space_with_rests_empty this (a b : Z) :
  b ≤ a → fill_space_with_rests this a b = Ok [].
Proof. intros. unfold fill_space_with_rests. apply fill_loop_done. lia. Qed.

(** C5.  For ticks [a <= b] within the measure, both aligned to the smallest
    supported tick unit, [fill_space_with_rests a b] terminates and returns
    rests only, whose tick lengths sum to [b - a]. *)
Theorem fill_space_with_rests_exact unit this (a b : Z) :
  table_ok unit →
  0 ≤ a → a ≤ b → b ≤ num_ticks this →
  (note_length_to_ticks unit | a) →
  (note_length_to_ticks unit | b) →
  ∃ rests,
    fill_space_with_rests this a b = Ok rests ∧
    Forall (λ n, Note_is_rest n = true) rests ∧
    sum_ticks rests = b - a.
Proof.
  intros Hok Ha Hab Hb Hda Hdb.
  destruct (fill_space_with_rests_ok unit this a b) as (rests & ? & ? & _ & ?);
    [done | done | by apply Z.divide_sub_r | lia | lia |].
  by exists rests.
Qed.

Lemma fill_loop_num_ticks this1 this2 fuel rests (a r : Z) :
  num_ticks this1 = num_ticks this2 →
  fill_loop this1 fuel rests a r = fill_loop this2 fuel rests a r.
Proof.
  intros Heq. revert rests r.
  assert (calculate_beat_level this1 a = calculate_beat_level this2 a) as Hb.
  { unfold calculate_beat_level. rewrite Heq. f_equal.
    unfold beat_level_step. by rewrite Heq. }
  induction fuel as [|fuel IH]; intros rests r; simpl; [done|].
  rewrite Hb. unfold optimal_rest_length. rewrite Heq.
  repeat case_match; auto.
Qed.

Lemma fill_space_with_rests_set_notes this ns (a b : Z) :
  fill_space_with_rests (set_notes this ns) a b = fill_space_with_rests this a b.
Proof. by apply fill_loop_num_ticks. Qed.

(** ** Array surgery *)

Lemma js_index_nat {A} (a : list A) (k : nat) : js_index a (Z.of_nat k) = a !! k.
Proof.
  unfold js_index. destruct (Z.ltb_spec (Z.of_nat k) 0); [lia|].
  by rewrite Nat2Z.id.
Qed.

Lemma js_splice_nat {A} (a : list A) (k c : nat) (items : list A) :
  (k ≤ length a)%nat →
  js_splice a (Z.of_nat k) c items = take k a ++ items ++ drop (k + c) a.
Proof.
  intros Hk. unfold js_splice.
  destruct (Z.ltb_spec (Z.of_nat k) 0); [lia|].
  by rewrite Z.min_l, Nat2Z.id by lia.
Qed.

Lemma js_splice_delete {A} (l1 : list A) x l2 :
  js_splice (l1 ++ x :: l2) (Z.of_nat (length l1)) 1 [] = l1 ++ l2.
Proof.
  rewrite js_splice_nat by (rewrite length_app; lia).
  rewrite take_app_length. simpl. f_equal.
  rewrite (cons_middle x l1 l2), app_assoc.
  replace (length l1 + 1)%nat with (length (l1 ++ [x]))
    by (rewrite length_app; simpl; lia).
  by rewrite drop_app_length.
Qed.

Lemma js_splice_insert {A} (l1 l2 items : list A) :
  js_splice (l1 ++ l2) (Z.of_nat (length l1)) 0 items = l1 ++ items ++ l2.
Proof.
  rewrite js_splice_nat by (rewrite length_app; lia).
  by rewrite take_app_length, Nat.add_0_r, drop_app_length.
Qed.

Lemma splice_rests_insert this pre post rests :
  notes this = pre ++ post →
  splice_rests (Z.of_nat (length pre)) rests this
  = (Ok tt, set_notes this (pre ++ rests ++ post)).
Proof.
  intros Hn. unfold splice_rests. rewrite Hn. do 2 f_equal.
  induction rests as [|r rests IH]; simpl; [done|].
  rewrite IH. apply (js_splice_insert pre (rests ++ post) [r]).
Qed.

(** ** The scan of place_note_in_measure *)

Lemma at_position_eq (cur t : Z) : at_position cur (Some t) = bool_decide (cur = t).
Proof.
  unfold at_position. destruct (Z.eqb_spec cur t);
    [by rewrite bool_decide_eq_true_2 | by rewrite bool_decide_eq_false_2].
Qed.

Lemma past_position_eq (cur t : Z) :
  past_position cur (Some t) = bool_decide (t < cur).
Proof.
  unfold past_position. destruct (Z.gtb_spec cur t);
    [rewrite bool_decide_eq_true_2 | rewrite bool_decide_eq_false_2]; (done || lia).
Qed.

Lemma loop_condition this pre post :
  notes this = pre ++ post →
  negb (Z.of_nat (length pre) <=? Z.of_nat (length (notes this))) = false.
Proof.
  intros ->. rewrite length_app.
  destruct (Z.leb_spec (Z.of_nat (length pre)) (Z.of_nat (length pre + length post)));
    [done | lia].
Qed.

Lemma js_index_middle this pre e post :
  notes this = pre ++ e :: post →
  js_index (notes this) (Z.of_nat (length pre)) = Some e.
Proof. intros ->. rewrite js_index_nat. apply list_lookup_middle. done. Qed.

Lemma insert_middle {A} (l1 l2 : list A) (x y : A) :
  <[length l1 := y]> (l1 ++ x :: l2) = l1 ++ y :: l2.
Proof. rewrite insert_app_r_alt by lia. by rewrite Nat.sub_diag. Qed.

Lemma length_snoc_Z {A} (l : list A) (x : A) :
  Z.of_nat (length l) + 1 = Z.of_nat (length (l ++ [x])).
Proof. rewrite length_app. simpl. lia. Qed.

(** The scan walks over the events that end at or before the target. *)
Lemma place_loop_skip ni (t : Z) this pre2 :
  quantized_tick_position ni = Some t →
  ∀ pre1 post fuel,
    notes this = pre1 ++ pre2 ++ post →
    positive_ticks pre2 →
    sum_ticks pre1 + sum_ticks pre2 ≤ t →
    place_loop (length pre2 + fuel) ni (Z.of_nat (length pre1)) (sum_ticks pre1) this
    = place_loop fuel ni (Z.of_nat (length (pre1 ++ pre2)))
        (sum_ticks (pre1 ++ pre2)) this.
Proof.
  intros Hq. induction pre2 as [|e q IH]; intros pre1 post fuel Hn Hpos Hle.
  - by rewrite app_nil_r.
  - apply Forall_cons in Hpos as [He Hpos].
    pose proof (sum_ticks_nonneg q Hpos). rewrite sum_ticks_cons in Hle.
    cbn [length Nat.add place_loop].
    rewrite (loop_condition this pre1 _ Hn), Hq, at_position_eq, past_position_eq.
    rewrite !bool_decide_eq_false_2 by lia.
    rewrite (js_index_middle this pre1 e (q ++ post) Hn).
    rewrite (length_snoc_Z pre1 e).
    replace (sum_ticks pre1 + note_length_to_ticks (Note_length e))
      with (sum_ticks (pre1 ++ [e])) by (rewrite sum_ticks_app; simpl; lia).
    rewrite (IH (pre1 ++ [e]) post fuel).
    + by rewrite <- app_assoc.
    + by rewrite <- app_assoc.
    + done.
    + rewrite sum_ticks_app. simpl. lia.
Qed.

(** The scan arrives at the event in which the target falls. *)
Lemma place_loop_reach ni (t : Z) this pre post fuel :
  quantized_tick_position ni = Some t →
  notes this = pre ++ post →
  positive_ticks pre →
  sum_ticks pre ≤ t →
  place_loop (length pre + fuel) ni 0 0 this
  = place_loop fuel ni (Z.of_nat (length pre)) (sum_ticks pre) this.
Proof.
  intros Hq Hn Hpos Hle.
  by apply (place_loop_skip ni t this pre Hq [] post fuel).
Qed.

(** The target is the start of a note: the pitch is merged into it. *)
Lemma place_loop_merge ni (t : Z) this pre e post fuel :
  quantized_tick_position ni = Some t →
  notes this = pre ++ e :: post →
  sum_ticks pre = t →
  Note_is_note e = true →
  place_loop (S fuel) ni (Z.of_nat (length pre)) (sum_ticks pre) this
  = (Ok tt, set_notes this (pre ++ Note_add_note ni e :: post)).
Proof.
  intros Hq Hn Ht He. cbn [place_loop].
  rewrite (loop_condition this pre _ Hn), Hq, at_position_eq.
  rewrite bool_decide_eq_true_2 by done.
  rewrite (js_index_middle this pre e post Hn), He.
  rewrite Nat2Z.id, Hn. do 2 f_equal.
  apply insert_middle.
Qed.

(** The target is the start of a rest: the rest is replaced. *)
Lemma place_loop_replace ni (t : Z) this pre e post fuel :
  quantized_tick_position ni = Some t →
  notes this = pre ++ e :: post →
  sum_ticks pre = t →
  Note_is_note e = false →
  place_loop (S fuel) ni (Z.of_nat (length pre)) (sum_ticks pre) this
  = remove_rest_and_insert_note t (Z.of_nat (length pre)) ni this.
Proof.
  intros Hq Hn Ht He. cbn [place_loop].
  rewrite (loop_condition this pre _ Hn), Hq, at_position_eq, past_position_eq.
  rewrite bool_decide_eq_true_2 by done.
  rewrite bool_decide_eq_false_2 by lia.
  rewrite (js_index_middle this pre e post Hn), He.
  assert (Note_is_rest e = true) as ->; [|by rewrite Ht].
  unfold Note_is_note, Note_is_rest in *. by destruct (Note_type e).
Qed.

(** The target lies inside an event: the scan passes it, then splits it. *)
Lemma place_loop_split ni (t : Z) this pre e post fuel :
  quantized_tick_position ni = Some t →
  notes this = pre ++ e :: post →
  sum_ticks pre < t →
  t < sum_ticks pre + note_length_to_ticks (Note_length e) →
  place_loop (S (S fuel)) ni (Z.of_nat (length pre)) (sum_ticks pre) this
  = split_rest_and_insert_note
      (sum_ticks pre + note_length_to_ticks (Note_length e))
      (Z.of_nat (length pre)) ni this.
Proof.
  intros Hq Hn Hlt Hgt. cbn [place_loop].
  rewrite (loop_condition this pre _ Hn), Hq, !at_position_eq, !past_position_eq.
  rewrite !bool_decide_eq_false_2 by lia.
  rewrite (js_index_middle this pre e post Hn).
  rewrite (length_snoc_Z pre e).
  cbn [place_loop].
  rewrite (loop_condition this (pre ++ [e]) post) by by rewrite <- app_assoc.
  rewrite ?Hq, at_position_eq, past_position_eq.
  rewrite bool_decide_eq_false_2, bool_decide_eq_true_2 by lia.
  rewrite <- length_snoc_Z. by replace (Z.of_nat (length pre) + 1 - 1)
    with (Z.of_nat (length pre)) by lia.
Qed.

(** ** The three placements *)

Lemma remove_rest_middle this pre e post :
  notes this = pre ++ e :: post →
  remove_rest (Z.of_nat (length pre)) this
  = (Ok (Some e), set_notes this (pre ++ post)).
Proof.
  intros Hn. unfold remove_rest.
  by rewrite (js_index_middle this pre e post Hn), Hn, js_splice_delete.
Qed.

Lemma insert_rests_after_note_ok this ni (t cur : Z) pre post rests :
  quantized_tick_position ni = Some t →
  notes this = pre ++ post →
  fill_space_with_rests this (t + note_length_to_ticks (note_length ni)) cur
  = Ok rests →
  insert_rests_after_note cur (Z.of_nat (length pre)) ni this
  = (Ok tt, set_notes this (pre ++ rests ++ post)).
Proof.
  intros Hq Hn Hfill. unfold insert_rests_after_note. rewrite Hq, Hfill.
  by apply splice_rests_insert.
Qed.

Lemma insert_new_note_ok this ni pre post :
  notes this = pre ++ post →
  insert_new_note (Z.of_nat (length pre)) ni this
  = (Ok tt, set_notes this (pre ++ placed_note ni :: post)).
Proof.
  intros Hn. unfold insert_new_note. rewrite Hn.
  by rewrite (js_splice_insert pre post [_]).
Qed.

Lemma insert_rests_before_note_ok this ni (t cur : Z) e pre post rests :
  quantized_tick_position ni = Some t →
  notes this = pre ++ post →
  fill_space_with_rests this
    (cur - note_length_to_ticks (Note_length e)) t = Ok rests →
  insert_rests_before_note cur (Z.of_nat (length pre)) (Some e) ni this
  = (Ok tt, set_notes this (pre ++ rests ++ post)).
Proof.
  intros Hq Hn Hfill. unfold insert_rests_before_note. rewrite Hq, Hfill.
  by apply splice_rests_insert.
Qed.

(** Replacing the rest that starts at the target by a note that is not
    longer. *)
Lemma remove_rest_and_insert_note_ok unit this ni (t : Z) pre e post :
  table_ok unit →
  quantized_tick_position ni = Some t →
  notes this = pre ++ e :: post →
  note_length_to_ticks (note_length ni) ≤ note_length_to_ticks (Note_length e) →
  (note_length_to_ticks unit | t + note_length_to_ticks (note_length ni)) →
  (note_length_to_ticks unit
   | note_length_to_ticks (Note_length e) - note_length_to_ticks (note_length ni)) →
  note_length_to_ticks (Note_length e) ≤ num_ticks this →
  0 < note_length_to_ticks (note_length ni) →
  ∃ rests,
    fill_space_with_rests this
      (t + note_length_to_ticks (note_length ni))
      (t + note_length_to_ticks (Note_length e)) = Ok rests ∧
    Forall (λ n, Note_is_rest n = true) rests ∧
    lengths_supported rests ∧
    sum_ticks rests
    = note_length_to_ticks (Note_length e) - note_length_to_ticks (note_length ni) ∧
    remove_rest_and_insert_note t (Z.of_nat (length pre)) ni this
    = (Ok tt, set_notes this (pre ++ placed_note ni :: rests ++ post)).
Proof.
  intros Hok Hq Hn Hle Hd1 Hd2 Hmax Hpos.
  destruct (fill_space_with_rests_ok unit this
              (t + note_length_to_ticks (note_length ni))
              (t + note_length_to_ticks (Note_length e)))
    as (rests & Hfill & Hrest & Hsup & Hsum); [done | done | | lia | lia |].
  { by replace (t + note_length_to_ticks (Note_length e)
                - (t + note_length_to_ticks (note_length ni)))
      with (note_length_to_ticks (Note_length e)
            - note_length_to_ticks (note_length ni)) by lia. }
  exists rests. split; [done|]. split; [done|]. split; [done|]. split; [lia|].
  unfold remove_rest_and_insert_note, bind.
  rewrite (remove_rest_middle this pre e post Hn).
  rewrite (insert_rests_after_note_ok _ ni t _ pre post rests); [|done|done|].
  - by rewrite (insert_new_note_ok _ ni pre (rests ++ post)).
  - by rewrite fill_space_with_rests_set_notes.
Qed.

(** Splitting the event in which the target falls around a note that ends
    no later than the event. *)
Lemma split_rest_and_insert_note_ok unit this ni (t : Z) pre e post :
  table_ok unit →
  quantized_tick_position ni = Some t →
  notes this = pre ++ e :: post →
  sum_ticks pre ≤ t →
  t + note_length_to_ticks (note_length ni)
  ≤ sum_ticks pre + note_length_to_ticks (Note_length e) →
  (note_length_to_ticks unit | sum_ticks pre) →
  (note_length_to_ticks unit | t) →
  (note_length_to_ticks unit | note_length_to_ticks (note_length ni)) →
  (note_length_to_ticks unit | note_length_to_ticks (Note_length e)) →
  note_length_to_ticks (Note_length e) ≤ num_ticks this →
  0 < note_length_to_ticks (note_length ni) →
  ∃ before after,
    fill_space_with_rests this (sum_ticks pre) t = Ok before ∧
    fill_space_with_rests this
      (t + note_length_to_ticks (note_length ni))
      (sum_ticks pre + note_length_to_ticks (Note_length e)) = Ok after ∧
    Forall (λ n, Note_is_rest n = true) (before ++ after) ∧
    lengths_supported before ∧ lengths_supported after ∧
    sum_ticks before = t - sum_ticks pre ∧
    sum_ticks after
    = sum_ticks pre + note_length_to_ticks (Note_length e)
      - (t + note_length_to_ticks (note_length ni)) ∧
    split_rest_and_insert_note
      (sum_ticks pre + note_length_to_ticks (Note_length e))
      (Z.of_nat (length pre)) ni this
    = (Ok tt,
       set_notes this (pre ++ before ++ placed_note ni :: after ++ post)).
Proof.
  intros Hok Hq Hn Hs Hfit Hds Hdt Hdl HdL Hmax Hpos.
  destruct (fill_space_with_rests_ok unit this (sum_ticks pre) t)
    as (before & Hfb & Hrb & Hsb & Hsumb);
    [done | done | by apply Z.divide_sub_r | lia | lia |].
  destruct (fill_space_with_rests_ok unit this
              (t + note_length_to_ticks (note_length ni))
              (sum_ticks pre + note_length_to_ticks (Note_length e)))
    as (after & Hfa & Hra & Hsa & Hsuma);
    [done | by apply Z.divide_add_r
    | apply Z.divide_sub_r; by apply Z.divide_add_r | lia | lia |].
  exists before, after.
  split; [done|]. split; [done|]. split; [by apply Forall_app|].
  split; [done|]. split; [done|]. split; [done|]. split; [done|].
  unfold split_rest_and_insert_note, bind.
  rewrite (remove_rest_middle this pre e post Hn).
  rewrite (insert_rests_after_note_ok _ ni t _ pre post after); [|done|done|].
  - rewrite (insert_new_note_ok _ ni pre (after ++ post)) by done.
    rewrite (insert_rests_before_note_ok _ ni t _ e pre
               (placed_note ni :: after ++ post) before); [done|done|done|].
    rewrite !fill_space_with_rests_set_notes.
    by replace (sum_ticks pre + note_length_to_ticks (Note_length e)
                - note_length_to_ticks (Note_length e)) with (sum_ticks pre) by lia.
  - by rewrite fill_space_with_rests_set_notes.
Qed.

(** ** quantize_position *)

Lemma below_num_quantized_beats_spec this (q i : Z) :
  0 < q →
  below_num_quantized_beats this q i = bool_decide (i * q < num_ticks this).
Proof.
  intros Hq. unfold below_num_quantized_beats.
  destruct q as [|p|p]; try lia. simpl.
  unfold Qltb, Qle_bool, Qdiv, Qmult, Qinv, inject_Z. simpl.
  rewrite Pos.mul_1_l.
  destruct (Z.leb_spec (num_ticks this * 1 * 1) (i * Z.pos p)); simpl;
    [rewrite bool_decide_eq_false_2 | rewrite bool_decide_eq_true_2]; (done || lia).
Qed.

(** The end-of-measure seed is never taken: the quotient is not rounded, so
    multiplying it back gives the tick length of the measure. *)
Lemma quantize_seed_branch this (q : Z) :
  negb (q =? 0)
  && Qltb (inject_Z (num_ticks this) / inject_Z q * inject_Z q)
       (inject_Z (num_ticks this)) = false.
Proof.
  destruct q as [|p|p]; [done| |];
    unfold Qltb, Qle_bool, Qdiv, Qmult, Qinv, inject_Z; simpl;
    apply negb_false_iff, Z.leb_le; nia.
Qed.

Lemma quantize_loop_ok this (q : Z) (pos : Q) :
  0 < q →
  ∀ (fuel : nat) (i : Z) (min : Q) (v : Z),
    0 ≤ i → num_ticks this - i ≤ Z.of_nat fuel →
    candidate_tick this q v →
    ∃ v', quantize_loop this fuel q pos i min (Some v) = Ok (Some v')
          ∧ candidate_tick this q v'.
Proof.
  intros Hq fuel.
  induction fuel as [|fuel IH]; intros i min v Hi Hfuel Hv.
  - exists v. simpl. rewrite below_num_quantized_beats_spec by done.
    rewrite bool_decide_eq_false_2 by nia. done.
  - cbn [quantize_loop]. rewrite below_num_quantized_beats_spec by done.
    destruct (decide (i * q < num_ticks this)) as [Hlt|Hge].
    + rewrite bool_decide_eq_true_2 by done. simpl.
      destruct (Qltb _ min); apply IH; try lia; try done.
      split; [nia | by apply Z.divide_factor_r].
    + rewrite bool_decide_eq_false_2 by done. by exists v.
Qed.

(** For a position in [0, 1) and a step of positive tick length, the
    quantizer returns a multiple of the step inside the measure, whatever
    the global held before. *)
Lemma quantize_position_ok this (quant : Z) (x : Q) (g : option Z) :
  0 < note_length_to_ticks quant →
  0 < num_ticks this →
  (0 <= x)%Q → (x < 1)%Q →
  ∃ t, quantize_position this quant x g = (Ok t, Some t)
       ∧ candidate_tick this (note_length_to_ticks quant) t.
Proof.
  intros Hq Hn Hx0 Hx1. unfold quantize_position.
  rewrite quantize_seed_branch. cbn [quantize_loop].
  rewrite below_num_quantized_beats_spec by done.
  rewrite bool_decide_eq_true_2 by lia. simpl negb. cbv iota.
  assert (Qltb (Qabs (inject_Z (0 * note_length_to_ticks quant)
                      - x * inject_Z (num_ticks this)))
            (inject_Z (num_ticks this)) = true) as ->.
  { unfold Qltb. apply negb_true_iff.
    destruct (Qle_bool _ _) eqn:Hle; [|done]. exfalso.
    apply Qle_bool_iff in Hle. revert Hle. apply Qlt_not_le.
    assert (0 < inject_Z (num_ticks this))%Q as HN
      by (rewrite <- (Zlt_Qlt 0); lia).
    assert (x * inject_Z (num_ticks this) < inject_Z (num_ticks this))%Q as Hlt.
    { rewrite <- (Qmult_1_l (inject_Z (num_ticks this))) at 2.
      by apply Qmult_lt_compat_r. }
    assert (0 <= x * inject_Z (num_ticks this))%Q as Hge
      by (apply Qmult_le_0_compat; [done | by apply Qlt_le_weak]).
    apply Qabs_Qlt_condition. rewrite Z.mul_0_l. change (inject_Z 0) with 0%Q.
    revert HN Hlt Hge.
    generalize (x * inject_Z (num_ticks this))%Q as X.
    generalize (inject_Z (num_ticks this)) as N.
    intros N X HN Hlt Hge. split; lra. }
  destruct (quantize_loop_ok this (note_length_to_ticks quant)
              (x * inject_Z (num_ticks this)) Hq (Z.to_nat (Z.abs (num_ticks this)))
              (0 + 1)
              (Qabs (inject_Z (0 * note_length_to_ticks quant)
                     - x * inject_Z (num_ticks this)))
              (0 * note_length_to_ticks quant))
    as (v' & -> & Hv'); [lia | lia | |by exists v'].
  split; [lia | apply Z.divide_0_r].
Qed.

(** ** Where a tick falls *)

Lemma event_at_found ns :
  positive_ticks ns →
  ∀ (cur t s : Z) e,
    cur ≤ t → event_at ns cur t = Some (s, e) →
    ∃ pre post,
      ns = pre ++ e :: post ∧ s = cur + sum_ticks pre ∧
      s ≤ t ∧ t < s + note_length_to_ticks (Note_length e).
Proof.
  induction 1 as [|x ns Hx Hns IH]; intros cur t s e Hcur Hev; [done|].
  simpl in Hev.
  destruct (Z.ltb_spec t (cur + note_length_to_ticks (Note_length x))).
  - simplify_eq. exists [], ns. simpl. repeat split; lia.
  - destruct (IH (cur + note_length_to_ticks (Note_length x)) t s e)
      as (pre & post & -> & -> & ? & ?); [lia | done |].
    exists (x :: pre), post. simpl. repeat split; lia.
Qed.

Lemma Note_add_note_length ni e : Note_length (Note_add_note ni e) = Note_length e.
Proof. unfold Note_add_note. by case_decide. Qed.

Lemma Note_remove_note_length ni e :
  Note_length (Note_remove_note ni e).2 = Note_length e.
Proof. done. Qed.

Lemma lengths_supported_app ns1 ns2 :
  lengths_supported (ns1 ++ ns2) ↔ lengths_supported ns1 ∧ lengths_supported ns2.
Proof. apply Forall_app. Qed.

Lemma lengths_supported_cons e ns :
  lengths_supported (e :: ns) ↔ Note_length e ∈ note_lengths ∧ lengths_supported ns.
Proof. unfold lengths_supported. by rewrite Forall_cons. Qed.

(** ** place_note_in_measure under the contract *)

(** The three outcomes of a placement that meets the contract, with the
    event [e] in which the target [t] falls. *)
Lemma place_note_in_measure_cases unit this ni (t : Z) :
  table_ok unit →
  duration_invariant this →
  lengths_supported (notes this) →
  quantized_tick_position ni = Some t →
  0 ≤ t → (note_length_to_ticks unit | t) →
  note_length ni ∈ note_lengths →
  note_fits this t (note_length ni) = true →
  ∃ pre e post,
    notes this = pre ++ e :: post ∧
    sum_ticks pre ≤ t ∧ t < sum_ticks pre + note_length_to_ticks (Note_length e) ∧
    ((sum_ticks pre = t ∧ Note_is_note e = true ∧
      place_note_in_measure ni this
      = (Ok tt, set_notes this (pre ++ Note_add_note ni e :: post)))
     ∨ (Note_is_note e = true → sum_ticks pre < t) ∧
       ∃ before after,
         Forall (λ n, Note_is_rest n = true) (before ++ after) ∧
         lengths_supported before ∧ lengths_supported after ∧
         sum_ticks before = t - sum_ticks pre ∧
         sum_ticks after
         = sum_ticks pre + note_length_to_ticks (Note_length e)
           - (t + note_length_to_ticks (note_length ni)) ∧
         (sum_ticks pre = t → before = []) ∧
         fill_space_with_rests this
           (t + note_length_to_ticks (note_length ni))
           (sum_ticks pre + note_length_to_ticks (Note_length e)) = Ok after ∧
         place_note_in_measure ni this
         = (Ok tt,
            set_notes this (pre ++ before ++ placed_note ni :: after ++ post))).
Proof.
  intros Hok Hinv Hsup Hq Ht Hdt Hlen Hfits.
  pose proof (lengths_supported_positive unit _ Hok Hsup) as Hpos.
  unfold note_fits in Hfits.
  destruct (event_at (notes this) 0 t) as [[s e]|] eqn:Hev; [|done].
  destruct (event_at_found _ Hpos 0 t s e Ht Hev)
    as (pre & post & Hn & -> & Hs & He).
  rewrite Z.add_0_l in *.
  exists pre, e, post. split; [done|]. split; [done|]. split; [done|].
  rewrite Hn in Hsup, Hpos.
  apply lengths_supported_app in Hsup as [Hsup_pre Hsup_post].
  apply lengths_supported_cons in Hsup_post as [Hsup_e Hsup_post].
  apply Forall_app in Hpos as [Hpos_pre Hpos_post].
  apply Forall_cons in Hpos_post as [Hpos_e Hpos_post].
  pose proof (sum_ticks_nonneg _ Hpos_pre).
  pose proof (sum_ticks_nonneg _ Hpos_post).
  assert (note_length_to_ticks (Note_length e) ≤ num_ticks this) as Hmax.
  { unfold duration_invariant in Hinv. rewrite Hn, sum_ticks_app in Hinv.
    simpl in Hinv. lia. }
  pose proof Hok as [Hunit Hall].
  destruct (Hall _ Hlen) as [Hlpos Hldiv]. destruct (Hall _ Hsup_e) as [_ Hediv].
  pose proof (lengths_supported_aligned unit _ Hok Hsup_pre) as Hdpre.
  unfold place_note_in_measure.
  replace (S (length (notes this)))
    with (length pre + S (S (length post)))%nat
    by (rewrite Hn, length_app; simpl; lia).
  rewrite (place_loop_reach ni t this pre (e :: post)) by done.
  destruct (decide (sum_ticks pre = t)) as [Heq|Hne].
  - destruct (Note_is_note e) eqn:Hnote.
    + left. split; [done|]. split; [done|]. by apply (place_loop_merge ni t).
    + right. split; [done|].
      rewrite (place_loop_replace ni t this pre e post) by done.
      apply orb_true_iff in Hfits as [Hfits|Hfits];
        [apply andb_true_iff in Hfits as [_ ?]; done|].
      apply Z.leb_le in Hfits.
      destruct (remove_rest_and_insert_note_ok unit this ni t pre e post)
        as (after & Hfa & Hra & Hsa & Hsuma & Hrun);
        [done | done | done | lia | by apply Z.divide_add_r
        | by apply Z.divide_sub_r | done | done |].
      exists [], after. simpl. rewrite Heq.
      repeat split; try done; try lia. constructor.
  - right. split; [lia|].
    apply orb_true_iff in Hfits as [Hfits|Hfits].
    { apply andb_true_iff in Hfits as [Hfits _]. apply Z.eqb_eq in Hfits. lia. }
    apply Z.leb_le in Hfits.
    rewrite (place_loop_split ni t this pre e post) by (done || lia).
    destruct (split_rest_and_insert_note_ok unit this ni t pre e post)
      as (before & after & Hfb & Hfa & Hr & Hsb & Hsa & Hsumb & Hsuma & Hrun);
      [done..|].
    exists before, after. repeat split; done.
Qed.

(** ** The scan of remove_note_from_measure *)

Lemma remove_loop_skip ni (t : Z) this pre2 :
  quantized_tick_position ni = Some t →
  ∀ pre1 post fuel,
    notes this = pre1 ++ pre2 ++ post →
    positive_ticks pre2 →
    sum_ticks pre1 + sum_ticks pre2 ≤ t →
    remove_loop (length pre2 + fuel) ni (Z.of_nat (length pre1)) (sum_ticks pre1) this
    = remove_loop fuel ni (Z.of_nat (length (pre1 ++ pre2)))
        (sum_ticks (pre1 ++ pre2)) this.
Proof.
  intros Hq. induction pre2 as [|e q IH]; intros pre1 post fuel Hn Hpos Hle.
  - by rewrite app_nil_r.
  - apply Forall_cons in Hpos as [He Hpos].
    pose proof (sum_ticks_nonneg q Hpos). rewrite sum_ticks_cons in Hle.
    cbn [length Nat.add remove_loop].
    rewrite (loop_condition this pre1 _ Hn), Hq, at_position_eq.
    rewrite bool_decide_eq_false_2 by lia.
    rewrite (js_index_middle this pre1 e (q ++ post) Hn).
    rewrite (length_snoc_Z pre1 e).
    replace (sum_ticks pre1 + note_length_to_ticks (Note_length e))
      with (sum_ticks (pre1 ++ [e])) by (rewrite sum_ticks_app; simpl; lia).
    rewrite (IH (pre1 ++ [e]) post fuel).
    + by rewrite <- app_assoc.
    + by rewrite <- app_assoc.
    + done.
    + rewrite sum_ticks_app. simpl. lia.
Qed.

(** Removing a pitch from the note that starts at the target. *)
Lemma remove_note_from_measure_hit ni (t : Z) this pre e post :
  quantized_tick_position ni = Some t →
  notes this = pre ++ e :: post →
  positive_ticks pre →
  sum_ticks pre = t →
  Note_is_note e = true →
  remove_note_from_measure ni this
  = (Ok tt,
     set_notes this
       (pre ++ (if (Note_remove_note ni e).1
                then Note_make_rest (Note_remove_note ni e).2
                else (Note_remove_note ni e).2) :: post)).
Proof.
  intros Hq Hn Hpos Ht He. unfold remove_note_from_measure.
  replace (S (length (notes this))) with (length pre + S (S (length post)))%nat
    by (rewrite Hn, length_app; simpl; lia).
  rewrite (remove_loop_skip ni t this pre Hq [] (e :: post)); [|done|done|simpl; lia].
  cbn [remove_loop app length sum_ticks].
  rewrite (loop_condition this pre _ Hn), Hq, at_position_eq.
  rewrite bool_decide_eq_true_2 by done.
  rewrite (js_index_middle this pre e post Hn), He.
  destruct (Note_remove_note ni e) as [empty n'] eqn:Hrm. simpl.
  rewrite Nat2Z.id, Hn, insert_middle.
  destruct empty; [|done].
  rewrite js_index_nat, list_lookup_middle by done. simpl.
  by rewrite insert_middle.
Qed.

(** Whatever its outcome, a removal leaves the tick length of the measure
    and the lengths of the events as they were. *)
Lemma remove_loop_lengths ni this :
  ∀ (fuel : nat) (i cur : Z) r this',
    remove_loop fuel ni i cur this = (r, this') →
    num_ticks this' = num_ticks this ∧
    Note_length <$> notes this' = Note_length <$> notes this.
Proof.
  induction fuel as [|fuel IH]; intros i cur r this' Hrun; simpl in Hrun.
  - destruct (negb _); by simplify_eq.
  - destruct (negb _); [by simplify_eq|].
    destruct (at_position _ _), (js_index (notes this) i) as [n|] eqn:Hi;
      try (by simplify_eq); try (by eapply IH).
    destruct (Note_is_note n); [|by eapply IH].
    simplify_eq/=. split; [done|].
    rewrite list_fmap_insert. apply list_insert_id.
    unfold js_index in Hi. destruct (i <? 0); [done|].
    by rewrite list_lookup_fmap, Hi.
Qed.

Lemma remove_note_from_measure_lengths ni this r this' :
  remove_note_from_measure ni this = (r, this') →
  num_ticks this' = num_ticks this ∧
  Note_length <$> notes this' = Note_length <$> notes this.
Proof.
  unfold remove_note_from_measure. intros Hrun.
  destruct (remove_loop _ ni 0 0 this) as [r1 this1] eqn:Hloop.
  apply remove_loop_lengths in Hloop as [Hnum Hlen].
  destruct r1 as [[[idx empty]|]|]; try (by simplify_eq).
  destruct empty; [|by simplify_eq].
  destruct (js_index (notes this1) idx) as [n|] eqn:Hi; simplify_eq/=; [|done].
  split; [done|]. rewrite <- Hlen.
  rewrite list_fmap_insert. apply list_insert_id.
  unfold js_index in Hi. destruct (idx <? 0); [done|].
  by rewrite list_lookup_fmap, Hi.
Qed.

(** When no note starts at the target, the scan runs past the last event and
    throws there, the measure untouched. *)
Lemma remove_loop_miss ni this post :
  ∀ pre (cur : Z) (fuel : nat),
    notes this = pre ++ post →
    (length post < fuel)%nat →
    (∀ p e q, post = p ++ e :: q →
              at_position (cur + sum_ticks p) (quantized_tick_position ni) = true →
              Note_is_note e = false) →
    remove_loop fuel ni (Z.of_nat (length pre)) cur this = (Throw TypeError, this).
Proof.
  induction post as [|e post IH]; intros pre cur fuel Hn Hfuel Hmiss;
    (destruct fuel as [|fuel]; [simpl in Hfuel; lia|]); cbn [remove_loop];
    rewrite (loop_condition this pre _ Hn).
  - rewrite js_index_nat, Hn, app_nil_r, lookup_ge_None_2 by lia.
    by destruct (at_position _ _).
  - rewrite (js_index_middle this pre e post Hn).
    assert (remove_loop fuel ni (Z.of_nat (length pre) + 1)
              (cur + note_length_to_ticks (Note_length e)) this
            = (Throw TypeError, this)) as Hnext.
    { rewrite (length_snoc_Z pre e). apply IH.
      - by rewrite <- app_assoc.
      - simpl in Hfuel. lia.
      - intros p e' q -> Hat. apply (Hmiss (e :: p) e' q); [done|].
        simpl. by rewrite Z.add_assoc. }
    destruct (at_position cur _) eqn:Hat; [|done].
    rewrite (Hmiss [] e post); [done | done |].
    simpl. by rewrite Z.add_0_r.
Qed.

(** The scan of a removal reads the quantized tick and the pitch of the
    request and nothing else. *)
Lemma remove_loop_agree ni1 ni2 this :
  quantized_tick_position ni1 = quantized_tick_position ni2 →
  pitch ni1 = pitch ni2 →
  ∀ (fuel : nat) (i cur : Z),
    remove_loop fuel ni1 i cur this = remove_loop fuel ni2 i cur this.
Proof.
  intros Hq Hp. induction fuel as [|fuel IH]; intros i cur; cbn [remove_loop];
    [done|].
  rewrite Hq. unfold Note_remove_note. rewrite Hp.
  repeat case_match; simplify_eq; auto.
Qed.

(** ** The scan of a placement that finds no case *)

Lemma place_loop_miss ni (t : Z) this post :
  quantized_tick_position ni = Some t →
  ∀ pre (cur : Z) (fuel : nat),
    notes this = pre ++ post →
    (length post < fuel)%nat →
    (∀ p e q, post = p ++ e :: q → cur + sum_ticks p < t) →
    cur + sum_ticks post ≤ t →
    place_loop fuel ni (Z.of_nat (length pre)) cur this = (Throw TypeError, this).
Proof.
  intros Hq.
  induction post as [|e post IH]; intros pre cur fuel Hn Hfuel Hbefore Hend;
    (destruct fuel as [|fuel]; [simpl in Hfuel; lia|]); cbn [place_loop];
    rewrite (loop_condition this pre _ Hn), Hq, at_position_eq, past_position_eq.
  - simpl in Hend. rewrite js_index_nat, Hn, app_nil_r, lookup_ge_None_2 by lia.
    rewrite (bool_decide_eq_false_2 (t < cur)) by lia. by case_bool_decide.
  - pose proof (Hbefore [] e post eq_refl) as H0. simpl in H0.
    rewrite !bool_decide_eq_false_2 by lia.
    rewrite (js_index_middle this pre e post Hn), (length_snoc_Z pre e).
    apply IH.
    + by rewrite <- app_assoc.
    + simpl in Hfuel. lia.
    + intros p e' q ->. pose proof (Hbefore (e :: p) e' q eq_refl) as H1.
      simpl in H1. lia.
    + simpl in Hend. lia.
Qed.

(** ** The invariant along the public calls *)

Lemma measure_ok_same_lengths this this' :
  num_ticks this' = num_ticks this →
  Note_length <$> notes this' = Note_length <$> notes this →
  measure_ok this → measure_ok this'.
Proof.
  intros Hnum Hlen [Hinv Hsup]. split.
  - unfold duration_invariant in *.
    by rewrite Hnum, (sum_ticks_same_lengths _ _ Hlen).
  - unfold lengths_supported in *.
    apply (Forall_fmap Note_length (λ d, d ∈ note_lengths)).
    rewrite Hlen. by apply Forall_fmap.
Qed.

Lemma new_Measure_ok unit (nb bv : Z) r m :
  table_ok unit → 0 ≤ nb → bv ∈ note_lengths →
  new_Measure nb bv = (r, m) → r = Ok tt ∧ measure_ok m.
Proof.
  intros Hok Hnb Hbv. unfold new_Measure, create_empty_measure. simpl.
  destruct Hok as [Hunit Hall]. destruct (Hall bv Hbv) as [Hpos Hdiv].
  destruct (fill_space_with_rests_ok unit
              {| num_beats := nb; beat_value := bv; notes := [];
                 num_ticks := nb * note_length_to_ticks bv |}
              0 (nb * note_length_to_ticks bv))
    as (rests & -> & _ & Hsup & Hsum); simpl;
    [done | apply Z.divide_0_r
    | rewrite Z.sub_0_r; by apply Z.divide_mul_r | nia | lia |].
  intros [= <- <-]. split; [done|]. split; [|done].
  unfold duration_invariant. simpl. lia.
Qed.

Lemma note_fits_nonempty this (t len : Z) :
  note_fits this t len = true → ∃ e ns, notes this = e :: ns.
Proof.
  unfold note_fits. destruct (notes this) as [|e ns]; [done|]. by exists e, ns.
Qed.

(** The quantized tick of a request that meets the contract. *)
Lemma add_contract_tick unit this g ni :
  table_ok unit → measure_ok this → add_contract this g ni →
  ∃ t,
    quantize_position this (quantization ni) (x_position ni) g = (Ok t, Some t) ∧
    0 ≤ t ∧ (note_length_to_ticks unit | t) ∧
    note_fits this t (note_length ni) = true.
Proof.
  intros Hok [Hinv Hsup] (Hx0 & Hx1 & Hquant & Hlen & t & g' & Hrun & Hfits).
  pose proof (lengths_supported_positive unit _ Hok Hsup) as Hpos.
  destruct (note_fits_nonempty _ _ _ Hfits) as (e & ns & Hn).
  assert (0 < num_ticks this) as Hnum.
  { unfold duration_invariant in Hinv. rewrite Hn in Hinv, Hpos.
    apply Forall_cons in Hpos as [He Hpos].
    pose proof (sum_ticks_nonneg _ Hpos). simpl in Hinv. lia. }
  destruct Hok as [Hunit Hall]. destruct (Hall _ Hquant) as [Hqpos Hqdiv].
  destruct (quantize_position_ok this (quantization ni) (x_position ni) g)
    as (t' & Hrun' & [Hrange Hdiv]); [done..|].
  rewrite Hrun' in Hrun. simplify_eq.
  exists t. split; [done|]. split; [lia|]. split; [|done].
  by etrans.
Qed.

Lemma add_note_ok unit this g ni r ni' this' g' :
  table_ok unit → measure_ok this → add_contract this g ni →
  add_note ni this g = (r, ni', this', g') → r = Ok true ∧ measure_ok this'.
Proof.
  intros Hok Hm Hc Hrun.
  destruct (add_contract_tick unit this g ni Hok Hm Hc)
    as (t & Hq & Ht & Hdiv & Hfits).
  destruct Hc as (_ & _ & _ & Hlen & _). pose proof Hm as [Hinv Hsup].
  unfold add_note in Hrun. rewrite Hq in Hrun.
  destruct (place_note_in_measure_cases unit this
              (set_quantized_tick_position ni t) t)
    as (pre & e & post & Hn & Hs & He & Hcases); [done..|].
  rewrite Hn in Hsup.
  apply lengths_supported_app in Hsup as [Hsup_pre Hsup_post].
  apply lengths_supported_cons in Hsup_post as [Hsup_e Hsup_post].
  unfold duration_invariant in Hinv. rewrite Hn, sum_ticks_app in Hinv.
  simpl in Hinv.
  destruct Hcases as [(Hpre & Hnote & Hplace)
    |(_ & before & after & _ & Hsb & Hsa & Hsumb & Hsuma & _ & _ & Hplace)];
    rewrite Hplace in Hrun; simplify_eq; (split; [done|]); split.
  - unfold duration_invariant. simpl.
    rewrite sum_ticks_app. simpl. rewrite Note_add_note_length. lia.
  - simpl. apply lengths_supported_app. split; [done|].
    apply lengths_supported_cons. by rewrite Note_add_note_length.
  - unfold duration_invariant. simpl in *.
    rewrite !sum_ticks_app. simpl. rewrite sum_ticks_app. lia.
  - simpl. apply lengths_supported_app. split; [done|].
    apply lengths_supported_app. split; [done|].
    apply lengths_supported_cons. split; [done|].
    by apply lengths_supported_app.
Qed.

Lemma remove_note_ok this ni r this' :
  measure_ok this → remove_note ni this = (r, this') → measure_ok this'.
Proof.
  intros Hm. unfold remove_note, bind, ret.
  destruct (remove_note_from_measure ni this) as [r1 this1] eqn:Hrun.
  apply remove_note_from_measure_lengths in Hrun as [Hnum Hlen].
  destruct r1; intros [= <- <-]; by eapply measure_ok_same_lengths.
Qed.

Lemma reachable_measure_ok unit m :
  table_ok unit → reachable m → measure_ok m.
Proof.
  intros Hok. induction 1 as [nb bv r m Hnb Hbv Hnew
    | m ni g r ni' m' g' _ IH Hc Hadd | m ni r m' _ IH Hrm].
  - by eapply new_Measure_ok.
  - by eapply add_note_ok.
  - by eapply remove_note_ok.
Qed.

(** C1 (as amended).  Over a table with a smallest unit, every measure
    obtained from the constructor (a non-negative beat count, a supported
    beat value) by [add_note] and [remove_note] calls keeps the sum of its
    events' tick lengths equal to [num_ticks], provided every [add_note]
    request has a position in [0, 1), a supported quantization and note
    length, and a note that ends no later than the event in which its
    quantized tick falls unless that tick is the start of a note. *)
Theorem duration_invariant_reachable unit m :
  table_ok unit → reachable m → duration_invariant m.
Proof. intros Hok Hm. by destruct (reachable_measure_ok unit m Hok Hm). Qed.

(** ** A note placed on the start of a rest *)

Lemma Note_is_rest_not_note e : Note_is_rest e = true → Note_is_note e = false.
Proof. unfold Note_is_rest, Note_is_note. by destruct (Note_type e). Qed.

(** C7 (as amended).  When the quantized tick of an [add_note] request is
    the start of a rest and the new note is not longer than that rest,
    the rest is removed, a note of the requested length takes its index, the
    leftover interval [target + note ticks, end of the old rest) is filled
    with rests right after it (none when the lengths are equal), and the
    events still sum to [num_ticks]. *)
Theorem add_note_replaces_rest unit this ni g (t : Z) g' pre e post :
  table_ok unit → measure_ok this →
  quantize_position this (quantization ni) (x_position ni) g = (Ok t, g') →
  notes this = pre ++ e :: post →
  sum_ticks pre = t →
  Note_is_rest e = true →
  note_length ni ∈ note_lengths →
  note_length_to_ticks (note_length ni) ≤ note_length_to_ticks (Note_length e) →
  ∃ rests,
    fill_space_with_rests this
      (t + note_length_to_ticks (note_length ni))
      (t + note_length_to_ticks (Note_length e)) = Ok rests ∧
    Forall (λ n, Note_is_rest n = true) rests ∧
    sum_ticks rests
    = note_length_to_ticks (Note_length e) - note_length_to_ticks (note_length ni) ∧
    (note_length_to_ticks (note_length ni) = note_length_to_ticks (Note_length e) →
     rests = []) ∧
    add_note ni this g
    = (Ok true, set_quantized_tick_position ni t,
       set_notes this (pre ++ placed_note ni :: rests ++ post), g') ∧
    duration_invariant (set_notes this (pre ++ placed_note ni :: rests ++ post)).
Proof.
  intros Hok [Hinv Hsup] Hquant Hn Ht He Hlen Hle.
  pose proof (lengths_supported_positive unit _ Hok Hsup) as Hpos.
  rewrite Hn in Hsup, Hpos.
  apply lengths_supported_app in Hsup as [Hsup_pre Hsup_post].
  apply lengths_supported_cons in Hsup_post as [Hsup_e Hsup_post].
  apply Forall_app in Hpos as [Hpos_pre Hpos_post].
  apply Forall_cons in Hpos_post as [Hpos_e Hpos_post].
  pose proof (sum_ticks_nonneg _ Hpos_pre).
  pose proof (sum_ticks_nonneg _ Hpos_post).
  unfold duration_invariant in Hinv. rewrite Hn, sum_ticks_app in Hinv.
  simpl in Hinv.
  pose proof (lengths_supported_aligned unit _ Hok Hsup_pre) as Hdpre.
  pose proof Hok as [Hunit Hall].
  destruct (Hall _ Hlen) as [Hlpos Hldiv]. destruct (Hall _ Hsup_e) as [_ Hediv].
  destruct (remove_rest_and_insert_note_ok unit this
              (set_quantized_tick_position ni t) t pre e post)
    as (rests & Hfill & Hrests & Hsupr & Hsum & Hrun);
    [done | done | done | done | apply Z.divide_add_r; [by rewrite <- Ht | done]
    | by apply Z.divide_sub_r | lia | done |].
  exists rests. split; [done|]. split; [done|]. split; [done|]. split; [|split].
  - intros Heq. rewrite fill_space_with_rests_empty in Hfill by (simpl; lia).
    by simplify_eq.
  - unfold add_note. rewrite Hquant. unfold place_note_in_measure.
    replace (S (length (notes this)))
      with (length pre + S (S (length post)))%nat
      by (rewrite Hn, length_app; simpl; lia).
    rewrite (place_loop_reach _ t this pre (e :: post)); [|done|done|done|lia].
    rewrite (place_loop_replace _ t this pre e post);
      [|done|done|done|by apply Note_is_rest_not_note].
    by rewrite Hrun.
  - unfold duration_invariant. simpl in *.
    rewrite sum_ticks_app. simpl. rewrite sum_ticks_app. lia.
Qed.

(** ** A scan that finds no case *)

Lemma start_tick_middle pre e post : start_tick (pre ++ e :: post) (length pre) = sum_ticks pre.
Proof. unfold start_tick. by rewrite take_app_length. Qed.

(** C8.  When the scan of [add_note] finds every event starting before the
    target and the measure ending at or before it, and when no note starts
    at the tick a [remove_note] request carries, the call does not return a
    success: it ends with the [TypeError] raised by reading the event one
    past the last, and the events of the measure are as before the call. *)
Theorem exhausted_scan_throws ni_add ni_remove this g (t : Z) g' :
  quantize_position this (quantization ni_add) (x_position ni_add) g = (Ok t, g') →
  (∀ i : nat, (i < length (notes this))%nat → start_tick (notes this) i < t) →
  sum_ticks (notes this) ≤ t →
  (∀ (i : nat) e,
     notes this !! i = Some e →
     at_position (start_tick (notes this) i) (quantized_tick_position ni_remove)
     = true →
     Note_is_note e = false) →
  add_note ni_add this g
  = (Throw TypeError, set_quantized_tick_position ni_add t, this, g') ∧
  remove_note ni_remove this = (Throw TypeError, this).
Proof.
  intros Hquant Hbefore Hend Hnone. split.
  - unfold add_note. rewrite Hquant. unfold place_note_in_measure.
    rewrite (place_loop_miss (set_quantized_tick_position ni_add t) t this
               (notes this) eq_refl [] 0); [done|done|lia| |lia].
    intros p e q Hn. rewrite Z.add_0_l, <- (start_tick_middle p e q), <- Hn.
    apply Hbefore. rewrite Hn, length_app. simpl. lia.
  - unfold remove_note, bind, remove_note_from_measure.
    rewrite (remove_loop_miss ni_remove this (notes this) [] 0); [done|done|lia|].
    intros p e q Hn Hat. apply (Hnone (length p) e).
    + rewrite Hn. by apply list_lookup_middle.
    + by rewrite Hn, start_tick_middle, <- (Z.add_0_l (sum_ticks p)).
Qed.

(** ** Adding a note and removing it again *)

Lemma Note_add_note_is_note ni e : Note_is_note (Note_add_note ni e) = Note_is_note e.
Proof. unfold Note_add_note. by case_decide. Qed.

Lemma remove_placed_note ni (t : Z) :
  (if (Note_remove_note (set_quantized_tick_position ni t) (placed_note ni)).1
   then Note_make_rest
          (Note_remove_note (set_quantized_tick_position ni t) (placed_note ni)).2
   else (Note_remove_note (set_quantized_tick_position ni t) (placed_note ni)).2)
  = Rest (note_length ni).
Proof.
  unfold Note_remove_note, placed_note. simpl.
  rewrite filter_cons_False by (intros Hne; by apply Hne).
  by rewrite filter_nil.
Qed.

(** C9 (as amended).  On a measure that satisfies the duration invariant, an
    [add_note] that meets the contract followed by [remove_note] with the
    same request, which now carries the quantized tick, both succeed and the
    events sum to [num_ticks] again.  When no note started at that tick
    before the pair of calls, the event that [add_note] created is the only
    one that changes in the removal: it becomes a rest of the note's own
    length at the same index, without any re-fill. *)
Theorem add_then_remove_note unit this g ni :
  table_ok unit → measure_ok this → add_contract this g ni →
  ∃ (t : Z) this1 this2,
    add_note ni this g
    = (Ok true, set_quantized_tick_position ni t, this1, Some t) ∧
    remove_note (set_quantized_tick_position ni t) this1 = (Ok true, this2) ∧
    duration_invariant this2 ∧
    ((∀ (i : nat) e, notes this !! i = Some e →
                     start_tick (notes this) i = t → Note_is_note e = false) →
     ∃ k : nat,
       start_tick (notes this1) k = t ∧
       notes this1 !! k = Some (placed_note ni) ∧
       notes this2 = <[k := Rest (note_length ni)]> (notes this1)).
Proof.
  intros Hok Hm Hc.
  destruct (add_contract_tick unit this g ni Hok Hm Hc)
    as (t & Hq & Ht & Hdiv & Hfits).
  pose proof Hc as (_ & _ & _ & Hlen & _). pose proof Hm as [Hinv Hsup].
  pose proof (lengths_supported_positive unit _ Hok Hsup) as Hpos.
  destruct (place_note_in_measure_cases unit this
              (set_quantized_tick_position ni t) t)
    as (pre & e & post & Hn & Hs & He & Hcases); [done..|].
  rewrite Hn in Hpos. apply Forall_app in Hpos as [Hpos_pre _].
  exists t.
  destruct Hcases as [(Hpre & Hnote & Hplace)
    |(Hnew & before & after & _ & Hsb & Hsa & Hsumb & _ & _ & _ & Hplace)].
  - (* the pitch was merged into the note that starts at [t] *)
    eexists _, _. split; [|split; [|split]].
    + unfold add_note. by rewrite Hq, Hplace.
    + unfold remove_note, bind, ret.
      rewrite (remove_note_from_measure_hit _ t _ pre
                 (Note_add_note (set_quantized_tick_position ni t) e) post);
        [done | done | done | done | done | by rewrite Note_add_note_is_note].
    + assert (measure_ok (set_notes this
                (pre ++ Note_add_note (set_quantized_tick_position ni t) e :: post)))
        as Hm1.
      { eapply (add_note_ok unit this g ni); [done..|].
        unfold add_note. by rewrite Hq, Hplace. }
      refine (proj1 (measure_ok_same_lengths _ _ _ _ Hm1)); [done|].
      simpl. rewrite !fmap_app, !fmap_cons. do 2 f_equal.
      by case_match.
    + intros Hnone. exfalso.
      assert (Note_is_note e = false) as Hfalse; [|congruence].
      apply (Hnone (length pre) e).
      * rewrite Hn. by apply list_lookup_middle.
      * by rewrite Hn, start_tick_middle.
  - (* a new note event was created at [t] *)
    assert (positive_ticks (pre ++ before)) as Hpos'.
    { apply Forall_app. split; [done|].
      by apply (lengths_supported_positive unit). }
    assert (sum_ticks (pre ++ before) = t) as Hsum'
      by (rewrite sum_ticks_app; lia).
    assert (notes (set_notes this
                     (pre ++ before ++ placed_note ni :: after ++ post))
            = (pre ++ before) ++ placed_note ni :: after ++ post) as Hn1
      by (simpl; by rewrite <- app_assoc).
    eexists _, _. split; [|split; [|split]].
    + unfold add_note. by rewrite Hq, Hplace.
    + unfold remove_note, bind, ret.
      by rewrite (remove_note_from_measure_hit _ t _ (pre ++ before)
                    (placed_note ni) (after ++ post)).
    + assert (measure_ok (set_notes this
                (pre ++ before ++ placed_note ni :: after ++ post))) as Hm1.
      { eapply (add_note_ok unit this g ni); [done..|].
        unfold add_note. by rewrite Hq, Hplace. }
      refine (proj1 (measure_ok_same_lengths _ _ _ _ Hm1)); [done|].
      cbn [notes set_notes]. rewrite remove_placed_note, <- app_assoc.
      by rewrite !fmap_app, !fmap_cons.
    + intros _. exists (length (pre ++ before)). cbn [notes set_notes].
      rewrite remove_placed_note.
      rewrite (app_assoc pre before). split; [by rewrite start_tick_middle|].
      split; [by apply list_lookup_middle|]. by rewrite insert_middle.
Qed.

(** ** What remove_note reads of the request *)

(** C10.  [remove_note] never calls [quantize_position]: two requests that
    carry the same quantized tick and the same pitch leave the same outcome
    and the same measure, whatever their quantization, position and note
    length. *)
Theorem remove_note_reads_tick_and_pitch ni1 ni2 this :
  quantized_tick_position ni1 = quantized_tick_position ni2 →
  pitch ni1 = pitch ni2 →
  remove_note ni1 this = remove_note ni2 this.
Proof.
  intros Hq Hp. unfold remove_note, bind, remove_note_from_measure.
  by rewrite (remove_loop_agree ni1 ni2 this Hq Hp).
Qed.

(** * Further properties of the code *)

(** ** The constructor *)

(** X1.  Over a table with a smallest unit, constructing a measure from a
    non-negative beat count and a supported beat value returns normally; the
    fresh measure holds rests only, of supported lengths, and they sum to
    [num_beats * ticks beat_value]. *)
Theorem new_Measure_all_rests unit (nb bv : Z) :
  table_ok unit → 0 ≤ nb → bv ∈ note_lengths →
  (new_Measure nb bv).1 = Ok tt ∧
  num_ticks (new_Measure nb bv).2 = nb * note_length_to_ticks bv ∧
  Forall (λ n, Note_is_rest n = true) (notes (new_Measure nb bv).2) ∧
  lengths_supported (notes (new_Measure nb bv).2) ∧
  sum_ticks (notes (new_Measure nb bv).2) = nb * note_length_to_ticks bv.
Proof.
  intros Hok Hnb Hbv. unfold new_Measure, create_empty_measure. simpl.
  pose proof Hok as [Hunit Hall]. destruct (Hall bv Hbv) as [Hpos Hdiv].
  destruct (fill_space_with_rests_ok unit
              {| num_beats := nb; beat_value := bv; notes := [];
                 num_ticks := nb * note_length_to_ticks bv |}
              0 (nb * note_length_to_ticks bv))
    as (rests & -> & Hrests & Hsup & Hsum); simpl;
    [done | apply Z.divide_0_r
    | rewrite Z.sub_0_r; by apply Z.divide_mul_r | nia | lia |].
  repeat split; try done. lia.
Qed.

(** ** calculate_beat_level, as the code computes it *)

Lemma fold_beat_level_spec this (t : Z) l (b0 : Z) :
  let b := fold_left (beat_level_step this t) l b0 in
  (b = b0 ∨ (b ∈ l ∧ on_beat this t b)) ∧
  b ≤ b0 ∧
  ∀ d, d ∈ l → on_beat this t d → b ≤ d.
Proof.
  revert b0. induction l as [|x l IH]; intros b0; simpl.
  - split; [by left|]. split; [lia|]. intros d Hd. by apply elem_of_nil in Hd.
  - destruct (IH (beat_level_step this t b0 x)) as (Hor & Hle & Hmin).
    pose proof (beat_level_step_le this t b0 x) as Hstep.
    assert (beat_level_step this t b0 x = b0 ∨
            (beat_level_step this t b0 x = x ∧ on_beat this t x)) as Hx.
    { unfold beat_level_step, on_beat.
      destruct (js_rem_is_zero _ _), (Z.ltb_spec x b0),
        (Z.leb_spec (note_length_to_ticks x) (num_ticks this)); simpl; auto. }
    split; [|split; [lia|]].
    + destruct Hor as [Hor|[Hin Hon]].
      * rewrite Hor. destruct Hx as [Hx|[Hx Hon]]; [by left|].
        right. rewrite Hx. split; [by left | done].
      * right. split; [by right | done].
    + intros d Hd Hon. apply elem_of_cons in Hd as [->|Hd]; [|by apply Hmin].
      etrans; [exact Hle|].
      unfold beat_level_step, on_beat in *. destruct Hon as [-> Hon].
      destruct (Z.ltb_spec x b0),
        (Z.leb_spec (note_length_to_ticks x) (num_ticks this)); simpl; lia.
Qed.

(** X2.  [calculate_beat_level] returns the smallest of [num_ticks] and the
    encodings of the supported lengths whose ticks divide the offset and do
    not exceed [num_ticks]: the result is [num_ticks] itself or such a
    length, never exceeds [num_ticks], and no such length has a smaller
    encoding. *)
Theorem calculate_beat_level_least this (t : Z) :
  (calculate_beat_level this t = num_ticks this ∨
   (calculate_beat_level this t ∈ note_lengths ∧
    on_beat this t (calculate_beat_level this t))) ∧
  calculate_beat_level this t ≤ num_ticks this ∧
  ∀ d, d ∈ note_lengths → on_beat this t d → calculate_beat_level this t ≤ d.
Proof. apply (fold_beat_level_spec this t note_lengths (num_ticks this)). Qed.

(** ** quantize_position, as the code computes it *)

Lemma Qltb_true (a b : Q) : Qltb a b = true → (a < b)%Q.
Proof.
  unfold Qltb. intros Hlt. apply negb_true_iff in Hlt.
  apply Qnot_le_lt. intros Hle. apply Qle_bool_iff in Hle. congruence.
Qed.



Lemma quantize_first_candidate (n : Z) (x : Q) (q : Z) :
  0 < n → (0 <= x)%Q → (x < 1)%Q →
  Qltb (Qabs (inject_Z (0 * q) - x * inject_Z n)) (inject_Z n) = true.
Proof.
  intros Hn Hx0 Hx1. unfold Qltb. apply negb_true_iff.
  destruct (Qle_bool _ _) eqn:Hle; [|done]. exfalso.
  apply Qle_bool_iff in Hle. revert Hle. apply Qlt_not_le.
  assert (0 < inject_Z n)%Q as HN by (rewrite <- (Zlt_Qlt 0); lia).
  assert (x * inject_Z n < inject_Z n)%Q as Hlt.
  { rewrite <- (Qmult_1_l (inject_Z n)) at 2. by apply Qmult_lt_compat_r. }
  assert (0 <= x * inject_Z n)%Q as Hge
    by (apply Qmult_le_0_compat; [done | by apply Qlt_le_weak]).
  apply Qabs_Qlt_condition. rewrite Z.mul_0_l. change (inject_Z 0) with 0%Q.
  revert HN Hlt Hge.
  generalize (x * inject_Z n)%Q as X. generalize (inject_Z n) as N.
  intros N X HN Hlt Hge. split; lra.
Qed.


(** A scan in which no candidate comes nearer than the current minimum
    leaves the global as it was. *)
Lemma quantize_loop_stale this (q : Z) (pos : Q) :
  0 < q →
  ∀ (fuel : nat) (i : Z) (min : Q) (g : option Z),
    0 ≤ i → num_ticks this - i ≤ Z.of_nat fuel →
    (∀ j, i ≤ j → j * q < num_ticks this → (min <= tick_distance q pos j)%Q) →
    quantize_loop this fuel q pos i min g = Ok g.
Proof.
  intros Hq fuel.
  induction fuel as [|fuel IH]; intros i min g Hi Hfuel Hfar;
    cbn [quantize_loop]; rewrite below_num_quantized_beats_spec by done.
  - by rewrite bool_decide_eq_false_2 by nia.
  - destruct (decide (i * q < num_ticks this)) as [Hlt|Hge].
    + rewrite bool_decide_eq_true_2 by done. cbn [negb].
      fold (tick_distance q pos i).
      destruct (Qltb (tick_distance q pos i) min) eqn:Hcmp.
      * apply Qltb_true in Hcmp. exfalso.
        apply (Qlt_not_le _ _ Hcmp). apply Hfar; [lia | done].
      * apply IH; [lia | lia |]. intros j Hj. apply Hfar. lia.
    + by rewrite bool_decide_eq_false_2 by done.
Qed.

(** X4.  For a position of 2 or more every candidate is farther from the
    position than the tick length of the measure, the loop assigns nothing,
    and [quantize_position] returns whatever its global held from an earlier
    call, on any measure; when nothing was ever assigned the read of the
    global is a [ReferenceError], and [add_note] then ends with it, the
    request, the measure and the global untouched. *)
Theorem quantize_position_stale this (quant : Z) (x : Q) :
  0 < note_length_to_ticks quant →
  0 < num_ticks this →
  (2 <= x)%Q →
  (∀ v, quantize_position this quant x (Some v) = (Ok v, Some v)) ∧
  quantize_position this quant x None = (Throw ReferenceError, None) ∧
  ∀ ni, quantization ni = quant → x_position ni = x →
        add_note ni this None = (Throw ReferenceError, ni, this, None).
Proof.
  intros Hq Hn Hx.
  assert (∀ g, quantize_loop this (S (Z.to_nat (Z.abs (num_ticks this))))
                 (note_length_to_ticks quant) (x * inject_Z (num_ticks this)) 0
                 (inject_Z (num_ticks this)) g = Ok g) as Hloop.
  { intros g. apply quantize_loop_stale; [done | lia | lia |].
    intros j Hj Hjn. unfold tick_distance.
    assert (inject_Z (j * note_length_to_ticks quant) < inject_Z (num_ticks this))%Q
      as HJ by by rewrite <- Zlt_Qlt.
    assert (0 < inject_Z (num_ticks this))%Q as HN
      by (rewrite <- (Zlt_Qlt 0); lia).
    assert (2 * inject_Z (num_ticks this) <= x * inject_Z (num_ticks this))%Q
      as Hpos by (apply Qmult_le_compat_r; [done | by apply Qlt_le_weak]).
    revert HJ HN Hpos.
    generalize (x * inject_Z (num_ticks this))%Q as X.
    generalize (inject_Z (j * note_length_to_ticks quant)) as J.
    generalize (inject_Z (num_ticks this)) as N.
    intros N J X HJ HN Hpos.
    apply (Qabs_case (J - X) (λ y, N <= y)%Q); intros; lra. }
  assert (∀ g, quantize_position this quant x g
               = (match g with
                  | Some v => Ok v
                  | None => Throw ReferenceError
                  end, g)) as Hquant.
  { intros g. unfold quantize_position. rewrite quantize_seed_branch, Hloop.
    by destruct g. }
  split; [intros v; apply Hquant|]. split; [apply Hquant|].
  intros ni <- <-. unfold add_note. by rewrite Hquant.
Qed.

(** ** The shape of what fill_space_with_rests returns *)

Lemma optimal_rest_length_Some this (c r d : Z) :
  optimal_rest_length this c r = Some d →
  d ∈ note_lengths ∧ rest_fits this c r d ∧
  ∀ d', d' ∈ note_lengths → rest_fits this c r d' →
        note_length_to_ticks d' ≤ note_length_to_ticks d.
Proof.
  intros Hopt.
  pose proof (search_state_fold this c r note_lengths) as Hs.
  unfold optimal_rest_length, search_state in *.
  destruct (fold_left _ _ _) as [m best]. simpl in *. subst best.
  destruct Hs as (_ & i & Hi & Hfit & Hmin).
  split; [by eapply list_elem_of_lookup_2|]. split; [done|].
  intros d' Hd' Hfit'. apply list_elem_of_lookup_1 in Hd' as [j Hj].
  destruct (Hmin j d' Hj Hfit') as [Hle _]. lia.
Qed.

Lemma fill_loop_shape unit this (a : Z) :
  table_ok unit →
  ∀ (fuel : nat) acc (r : Z) res,
    r ≤ num_ticks this →
    fill_loop this fuel acc a r = Ok res →
    ∃ new,
      res = acc ++ new ∧ non_increasing new ∧
      Forall (λ n, calculate_beat_level this a ≤ Note_length n ∧
                   Note_length n ∈ note_lengths ∧
                   note_length_to_ticks (Note_length n) ≤ r) new.
Proof.
  intros [_ Hall] fuel.
  induction fuel as [|fuel IH]; intros acc r res Hr Hrun; cbn [fill_loop] in Hrun;
    destruct (Z.gtb_spec r 0) as [Hpos|Hneg]; try done;
    try (simplify_eq; exists []; rewrite app_nil_r;
         split; [done|]; split; constructor).
  destruct (optimal_rest_length this (calculate_beat_level this a) r)
    as [d|] eqn:Hopt; [|done].
  apply optimal_rest_length_Some in Hopt as (Hd & (Hc & Hfit & Hlt) & Hbest).
  destruct (Hall d Hd) as [Hdpos _].
  apply IH in Hrun as (new & -> & Hsorted & Hnew); [|lia].
  exists (new_Note rest_pitch d rest_type :: new).
  split; [by rewrite <- app_assoc|]. split.
  - constructor; [done|]. eapply Forall_impl; [exact Hnew|].
    intros n (Hn1 & Hn2 & Hn3). simpl. apply Hbest; [done|].
    destruct (Hall _ Hn2) as [Hnpos _]. unfold rest_fits. lia.
  - constructor; [simpl; split; [done|]; split; [done|]; lia|].
    eapply Forall_impl; [exact Hnew|]. simpl. intros n (? & ? & ?).
    split; [done|]. split; [done|]. lia.
Qed.

(** X5.  Over a table with positive tick counts, whenever
    [fill_space_with_rests a b] returns rests for a span no longer than the
    measure, they come in order of non-increasing tick length, and every one
    of them has an encoding at or above the beat level of the start tick [a]:
    the ceiling is computed at [a] at every turn and never at the tick the
    fill has advanced to. *)
Theorem fill_space_with_rests_shape unit this (a b : Z) rests :
  table_ok unit →
  b - a ≤ num_ticks this →
  fill_space_with_rests this a b = Ok rests →
  non_increasing rests ∧
  Forall (λ n, calculate_beat_level this a ≤ Note_length n ∧
               note_length_to_ticks (Note_length n) ≤ b - a) rests.
Proof.
  intros Hok Hle Hrun.
  apply (fill_loop_shape unit this a Hok) in Hrun as (new & -> & Hsorted & Hnew);
    [|done].
  split; [done|]. simpl. eapply Forall_impl; [exact Hnew|].
  intros n (? & _ & ?). done.
Qed.

(** ** remove_note on any measure *)

(** X6.  Whatever the request and whatever the outcome, [remove_note]
    leaves the beat count, the beat value and the tick length of the measure,
    the number of events and the length of every event as they were. *)
Theorem remove_note_keeps_lengths ni this :
  num_beats (remove_note ni this).2 = num_beats this ∧
  beat_value (remove_note ni this).2 = beat_value this ∧
  num_ticks (remove_note ni this).2 = num_ticks this ∧
  length (notes (remove_note ni this).2) = length (notes this) ∧
  Note_length <$> notes (remove_note ni this).2 = Note_length <$> notes this.
Proof.
  assert (∀ (fuel : nat) (i cur : Z) r this',
            remove_loop fuel ni i cur this = (r, this') →
            num_beats this' = num_beats this ∧ beat_value this' = beat_value this)
    as Hframe.
  { induction fuel as [|fuel IH]; intros i cur r this' Hrun; simpl in Hrun.
    - destruct (negb _); by simplify_eq.
    - destruct (negb _); [by simplify_eq|].
      destruct (at_position _ _), (js_index (notes this) i) as [n|];
        try (by simplify_eq); try (by eapply IH).
      destruct (Note_is_note n); [by simplify_eq/= | by eapply IH]. }
  unfold remove_note, bind, ret.
  destruct (remove_note_from_measure ni this) as [r this'] eqn:Hrun.
  pose proof (remove_note_from_measure_lengths _ _ _ _ Hrun) as [Hnum Hlen].
  assert (num_beats this' = num_beats this ∧ beat_value this' = beat_value this)
    as [Hb Hv].
  { unfold remove_note_from_measure in Hrun.
    destruct (remove_loop _ ni 0 0 this) as [r1 this1] eqn:Hloop.
    apply Hframe in Hloop. destruct r1 as [[[idx empty]|]|]; try (by simplify_eq).
    destruct empty; [|by simplify_eq].
    destruct (js_index (notes this1) idx); by simplify_eq/=. }
  assert (length (notes this') = length (notes this)) as Hcount
    by (rewrite <- (length_fmap Note_length), Hlen; apply length_fmap).
  by destruct r.
Qed.

Lemma remove_loop_throw ni this :
  ∀ (fuel : nat) (i cur : Z) (ex : exn) this',
    remove_loop fuel ni i cur this = (Throw ex, this') → this' = this.
Proof.
  induction fuel as [|fuel IH]; intros i cur ex this' Hrun; simpl in Hrun.
  - destruct (negb _); by simplify_eq.
  - destruct (negb _); [by simplify_eq|].
    destruct (at_position _ _), (js_index (notes this) i) as [n|];
      try (by simplify_eq); try (by eapply IH).
    destruct (Note_is_note n); [by simplify_eq/= | by eapply IH].
Qed.

Lemma remove_loop_found ni this :
  ∀ (fuel : nat) (i cur idx : Z) empty this',
    remove_loop fuel ni i cur this = (Ok (Some (idx, empty)), this') →
    is_Some (js_index (notes this') idx).
Proof.
  induction fuel as [|fuel IH]; intros i cur idx empty this' Hrun; simpl in Hrun.
  - destruct (negb _); by simplify_eq.
  - destruct (negb _); [by simplify_eq|].
    destruct (at_position _ _), (js_index (notes this) i) as [n|] eqn:Hi;
      try (by simplify_eq); try (by eapply IH).
    destruct (Note_is_note n); [|by eapply IH].
    simplify_eq/=. unfold js_index in *. destruct (idx <? 0); [done|].
    apply lookup_lt_is_Some. rewrite length_insert.
    by eapply lookup_lt_Some.
Qed.

(** X7.  [remove_note] is all-or-nothing on failure: whenever it throws,
    for any request and any measure, the measure is exactly as before the
    call. *)
Theorem remove_note_throw_unchanged ni this (ex : exn) :
  (remove_note ni this).1 = Throw ex → (remove_note ni this).2 = this.
Proof.
  unfold remove_note, bind, ret, remove_note_from_measure.
  destruct (remove_loop _ ni 0 0 this) as [r1 this1] eqn:Hloop.
  destruct r1 as [[[idx empty]|]|e1]; simpl.
  - destruct empty; [|done].
    destruct (remove_loop_found _ _ _ _ _ _ _ _ Hloop) as [n ->]. done.
  - done.
  - intros _. by eapply remove_loop_throw.
Qed.

(** X8.  When a note starts at the tick the request carries (the events
    before it having positive tick lengths), [remove_note] returns [true] and
    changes that event only: the pitch is gone from it, its length is kept,
    it becomes a rest of the same length when no other pitch remains and
    stays a note otherwise. *)
Theorem remove_note_at_note ni this pre e post :
  notes this = pre ++ e :: post →
  positive_ticks pre →
  quantized_tick_position ni = Some (sum_ticks pre) →
  Note_is_note e = true →
  ∃ e',
    remove_note ni this = (Ok true, set_notes this (pre ++ e' :: post)) ∧
    Note_length e' = Note_length e ∧
    (translate_midi_number_to_pitch (pitch ni) ∉ Note_pitches e') ∧
    (Forall (λ q, q = translate_midi_number_to_pitch (pitch ni)) (Note_pitches e) →
     e' = Rest (Note_length e)) ∧
    (¬ Forall (λ q, q = translate_midi_number_to_pitch (pitch ni)) (Note_pitches e) →
     Note_is_note e' = true ∧
     Note_pitches e'
     = filter (λ q, q ≠ translate_midi_number_to_pitch (pitch ni)) (Note_pitches e)).
Proof.
  intros Hn Hpos Hq He.
  eexists. split.
  { unfold remove_note, bind, ret.
    by rewrite (remove_note_from_measure_hit ni (sum_ticks pre) this pre e post). }
  unfold Note_remove_note. cbn [fst snd].
  set (p := translate_midi_number_to_pitch (pitch ni)).
  assert (filter (λ q, q ≠ p) (Note_pitches e) = []
          ↔ Forall (λ q, q = p) (Note_pitches e)) as Hempty.
  { induction (Note_pitches e) as [|q l IH]; [by split; constructor|].
    destruct (decide (q = p)) as [->|Hne].
    - rewrite filter_cons_False by (intros Hne; by apply Hne).
      rewrite IH, Forall_cons. split; [by intros | by intros [_ ?]].
    - rewrite filter_cons_True by done. rewrite Forall_cons.
      split; [done | by intros [? _]]. }
  case_bool_decide as Hnil.
  - split; [done|]. split; [by apply not_elem_of_nil|].
    split; [done|]. intros Hnot. by apply Hempty in Hnil.
  - simpl. split; [done|]. split.
    + intros Hin. apply list_elem_of_filter in Hin as [Hne _]. by apply Hne.
    + split; [intros Hall; by apply Hempty in Hall|].
      intros _. split; [|done].
      unfold Note_is_note in *. simpl. done.
Qed.

(** ** add_note, case by case *)

Lemma Note_add_note_pitch ni e :
  translate_midi_number_to_pitch (pitch ni) ∈ Note_pitches (Note_add_note ni e).
Proof.
  unfold Note_add_note. case_decide; [done|]. simpl.
  apply elem_of_app. right. by apply list_elem_of_singleton.
Qed.

Lemma Note_add_note_keeps ni e p :
  p ∈ Note_pitches e → p ∈ Note_pitches (Note_add_note ni e).
Proof.
  intros Hp. unfold Note_add_note. case_decide; [done|]. simpl.
  apply elem_of_app. by left.
Qed.

(** X9.  When the quantized tick is the start of a note (the events before
    it having positive tick lengths), [add_note] returns [true] and changes
    that event only: the translated pitch joins its pitch set, the pitches it
    held stay, and its length is kept, whatever note length the request
    asks for; no event is created or removed. *)
Theorem add_note_merges_pitch this ni g (t : Z) g' pre e post :
  quantize_position this (quantization ni) (x_position ni) g = (Ok t, g') →
  notes this = pre ++ e :: post →
  positive_ticks pre →
  sum_ticks pre = t →
  Note_is_note e = true →
  add_note ni this g
  = (Ok true, set_quantized_tick_position ni t,
     set_notes this (pre ++ Note_add_note ni e :: post), g') ∧
  Note_length (Note_add_note ni e) = Note_length e ∧
  translate_midi_number_to_pitch (pitch ni) ∈ Note_pitches (Note_add_note ni e) ∧
  ∀ p, p ∈ Note_pitches e → p ∈ Note_pitches (Note_add_note ni e).
Proof.
  intros Hquant Hn Hpos Ht He. split.
  - unfold add_note. rewrite Hquant. unfold place_note_in_measure.
    replace (S (length (notes this)))
      with (length pre + S (S (length post)))%nat
      by (rewrite Hn, length_app; simpl; lia).
    rewrite (place_loop_reach _ t this pre (e :: post)); [|done|done|done|lia].
    by rewrite (place_loop_merge _ t this pre e post).
  - split; [apply Note_add_note_length|].
    split; [apply Note_add_note_pitch|]. intros p. apply Note_add_note_keeps.
Qed.

(** X10.  When the quantized tick falls strictly inside an event and the
    note ends no later than that event, [add_note] removes the event, be it
    a rest or a note with its pitches, and puts in its place rests up to the
    tick (at least one), the new note, and rests for what is left of the
    event; the events before and after are untouched and the events still
    sum to [num_ticks]. *)
Theorem add_note_splits_event unit this ni g (t : Z) g' pre e post :
  table_ok unit → measure_ok this →
  quantize_position this (quantization ni) (x_position ni) g = (Ok t, g') →
  notes this = pre ++ e :: post →
  sum_ticks pre < t →
  (note_length_to_ticks unit | t) →
  note_length ni ∈ note_lengths →
  t + note_length_to_ticks (note_length ni)
  ≤ sum_ticks pre + note_length_to_ticks (Note_length e) →
  ∃ before after,
    add_note ni this g
    = (Ok true, set_quantized_tick_position ni t,
       set_notes this (pre ++ before ++ placed_note ni :: after ++ post), g') ∧
    Forall (λ n, Note_is_rest n = true) (before ++ after) ∧
    before ≠ [] ∧
    sum_ticks before = t - sum_ticks pre ∧
    sum_ticks after
    = sum_ticks pre + note_length_to_ticks (Note_length e)
      - (t + note_length_to_ticks (note_length ni)) ∧
    duration_invariant
      (set_notes this (pre ++ before ++ placed_note ni :: after ++ post)).
Proof.
  intros Hok [Hinv Hsup] Hquant Hn Ht Hdt Hlen Hfit.
  pose proof (lengths_supported_positive unit _ Hok Hsup) as Hpos.
  rewrite Hn in Hsup, Hpos.
  apply lengths_supported_app in Hsup as [Hsup_pre Hsup_post].
  apply lengths_supported_cons in Hsup_post as [Hsup_e Hsup_post].
  apply Forall_app in Hpos as [Hpos_pre Hpos_post].
  apply Forall_cons in Hpos_post as [Hpos_e Hpos_post].
  pose proof (sum_ticks_nonneg _ Hpos_pre).
  pose proof (sum_ticks_nonneg _ Hpos_post).
  unfold duration_invariant in Hinv. rewrite Hn, sum_ticks_app in Hinv.
  simpl in Hinv.
  pose proof (lengths_supported_aligned unit _ Hok Hsup_pre) as Hdpre.
  pose proof Hok as [Hunit Hall].
  destruct (Hall _ Hlen) as [Hlpos Hldiv]. destruct (Hall _ Hsup_e) as [_ Hediv].
  destruct (split_rest_and_insert_note_ok unit this
              (set_quantized_tick_position ni t) t pre e post)
    as (before & after & _ & _ & Hr & _ & _ & Hsumb & Hsuma & Hrun);
    [done | done | done | lia | done | done | done | done | done | lia | done |].
  exists before, after. split; [|split; [done|]; split; [|split; [done|]; split; [done|]]].
  - unfold add_note. rewrite Hquant. unfold place_note_in_measure.
    replace (S (length (notes this)))
      with (length pre + S (S (length post)))%nat
      by (rewrite Hn, length_app; simpl; lia).
    rewrite (place_loop_reach _ t this pre (e :: post)); [|done|done|done|lia].
    rewrite (place_loop_split _ t this pre e post); [|done|done|done|lia].
    by rewrite Hrun.
  - intros ->. simpl in Hsumb. lia.
  - unfold duration_invariant. simpl in *.
    rewrite !sum_ticks_app. simpl. rewrite sum_ticks_app. lia.
Qed.

(** X11.  When the quantized tick is the start of a rest and the note is at
    least as long as that rest, [add_note] still returns [true]: the note
    takes the place of the rest, no rest is added, nothing after it is
    shortened, and the events' tick lengths grow by the difference. *)
Theorem add_note_overflows_rest this ni g (t : Z) g' pre e post :
  quantize_position this (quantization ni) (x_position ni) g = (Ok t, g') →
  notes this = pre ++ e :: post →
  positive_ticks pre →
  sum_ticks pre = t →
  Note_is_rest e = true →
  note_length_to_ticks (Note_length e) ≤ note_length_to_ticks (note_length ni) →
  add_note ni this g
  = (Ok true, set_quantized_tick_position ni t,
     set_notes this (pre ++ placed_note ni :: post), g') ∧
  sum_ticks (pre ++ placed_note ni :: post)
  = sum_ticks (notes this)
    + (note_length_to_ticks (note_length ni) - note_length_to_ticks (Note_length e)).
Proof.
  intros Hquant Hn Hpos Ht He Hle. split.
  - unfold add_note. rewrite Hquant. unfold place_note_in_measure.
    replace (S (length (notes this)))
      with (length pre + S (S (length post)))%nat
      by (rewrite Hn, length_app; simpl; lia).
    rewrite (place_loop_reach _ t this pre (e :: post)); [|done|done|done|lia].
    rewrite (place_loop_replace _ t this pre e post);
      [|done|done|done|by apply Note_is_rest_not_note].
    unfold remove_rest_and_insert_note, bind.
    rewrite (remove_rest_middle this pre e post Hn).
    rewrite (insert_rests_after_note_ok _ (set_quantized_tick_position ni t) t _
               pre post []); [|done|done|].
    + by rewrite (insert_new_note_ok _ _ pre post).
    + apply fill_space_with_rests_empty. simpl. lia.
  - rewrite Hn, !sum_ticks_app. simpl. lia.
Qed.

(** X12.  An [add_note] that meets the contract is local and lands where it
    was asked: exactly one event [e] of the measure is replaced, by a run
    [before ++ n :: after] of the same total tick length in which [n] is a
    note that holds the translated pitch and starts at the quantized tick
    and all the others are rests; the events before and after [e] are
    untouched, and the quantized tick is stored on the request and in the
    global. *)
Theorem add_note_local unit this g ni :
  table_ok unit → measure_ok this → add_contract this g ni →
  ∃ (t : Z) pre e post before n after,
    notes this = pre ++ e :: post ∧
    add_note ni this g
    = (Ok true, set_quantized_tick_position ni t,
       set_notes this (pre ++ before ++ n :: after ++ post), Some t) ∧
    Forall (λ r, Note_is_rest r = true) (before ++ after) ∧
    Note_is_note n = true ∧
    translate_midi_number_to_pitch (pitch ni) ∈ Note_pitches n ∧
    sum_ticks (pre ++ before) = t ∧
    sum_ticks (before ++ n :: after) = note_length_to_ticks (Note_length e).
Proof.
  intros Hok Hm Hc.
  destruct (add_contract_tick unit this g ni Hok Hm Hc)
    as (t & Hq & Ht & Hdiv & Hfits).
  pose proof Hc as (_ & _ & _ & Hlen & _). pose proof Hm as [Hinv Hsup].
  destruct (place_note_in_measure_cases unit this
              (set_quantized_tick_position ni t) t)
    as (pre & e & post & Hn & Hs & He & Hcases); [done..|].
  exists t, pre, e, post.
  destruct Hcases as [(Hpre & Hnote & Hplace)
    |(_ & before & after & Hr & _ & _ & Hsumb & Hsuma & _ & _ & Hplace)].
  - exists [], (Note_add_note (set_quantized_tick_position ni t) e), [].
    split; [done|]. split; [unfold add_note; by rewrite Hq, Hplace|].
    split; [constructor|]. split; [by rewrite Note_add_note_is_note|].
    split; [apply (Note_add_note_pitch (set_quantized_tick_position ni t))|].
    split; [by rewrite app_nil_r|].
    simpl. rewrite Note_add_note_length. lia.
  - exists before, (placed_note ni), after.
    split; [done|]. split; [unfold add_note; by rewrite Hq, Hplace|].
    split; [done|]. split; [done|].
    split; [by apply list_elem_of_singleton|].
    split; [rewrite sum_ticks_app; lia|].
    rewrite sum_ticks_app. simpl in *. lia.
Qed.

(** ** What every reachable measure satisfies *)

Lemma length_le_sum_ticks ns :
  positive_ticks ns → Z.of_nat (length ns) ≤ sum_ticks ns.
Proof. induction 1; simpl; lia. Qed.

(** X13.  Over a table with a smallest unit, every measure obtained from
    the constructor by [add_note] calls that meet the contract and by
    [remove_note] calls holds events of supported lengths only, and has at
    most [num_ticks] of them. *)
Theorem reachable_event_count unit m :
  table_ok unit → reachable m →
  lengths_supported (notes m) ∧ Z.of_nat (length (notes m)) ≤ num_ticks m.
Proof.
  intros Hok Hm. destruct (reachable_measure_ok unit m Hok Hm) as [Hinv Hsup].
  split; [done|]. rewrite <- Hinv. apply length_le_sum_ticks.
  by apply (lengths_supported_positive unit).
Qed.

(** ** Two notes at the same position *)

Lemma quantize_loop_num_ticks this1 this2 (q : Z) (pos : Q) :
  num_ticks this1 = num_ticks this2 →
  ∀ (fuel : nat) (i : Z) (min : Q) (g : option Z),
    quantize_loop this1 fuel q pos i min g = quantize_loop this2 fuel q pos i min g.
Proof.
  intros Heq. induction fuel as [|fuel IH]; intros i min g; cbn [quantize_loop];
    unfold below_num_quantized_beats; rewrite Heq; [done|].
  by rewrite !IH.
Qed.

(** The quantizer reads the tick length of the measure and nothing else of
    it, and for a position in [0, 1) its result does not depend on the
    global. *)
Lemma quantize_position_same this1 this2 (quant : Z) (x : Q) (g1 g2 : option Z) :
  num_ticks this1 = num_ticks this2 →
  0 < num_ticks this1 → 0 < note_length_to_ticks quant →
  (0 <= x)%Q → (x < 1)%Q →
  quantize_position this1 quant x g1 = quantize_position this2 quant x g2.
Proof.
  intros Heq Hn Hq Hx0 Hx1. unfold quantize_position.
  rewrite !quantize_seed_branch. cbn [quantize_loop].
  rewrite !below_num_quantized_beats_spec by done.
  rewrite !bool_decide_eq_true_2 by lia. simpl negb. cbv iota.
  rewrite <- Heq, quantize_first_candidate by done.
  rewrite (quantize_loop_num_ticks this1 this2 _ _ Heq).
  destruct (quantize_loop_ok this2 (note_length_to_ticks quant)
              (x * inject_Z (num_ticks this1)) Hq
              (Z.to_nat (Z.abs (num_ticks this1))) (0 + 1)
              (Qabs (inject_Z (0 * note_length_to_ticks quant)
                     - x * inject_Z (num_ticks this1)))
              (0 * note_length_to_ticks quant))
    as (v' & -> & _); [lia | lia | | done].
  split; [lia | apply Z.divide_0_r].
Qed.

(** X14.  After an [add_note] that meets the contract, a second [add_note]
    with the same quantization and position quantizes to the same tick,
    whatever the global holds by then, and builds a chord: it returns [true]
    and changes only the note that starts at that tick, by adding its pitch
    to it; the note length of the second request is not used and no event is
    created, removed or resized. *)
Theorem add_note_twice_builds_chord unit this g ni1 ni2 g2 :
  table_ok unit → measure_ok this → add_contract this g ni1 →
  quantization ni2 = quantization ni1 →
  x_position ni2 = x_position ni1 →
  ∃ (t : Z) this1 (k : nat) n,
    add_note ni1 this g
    = (Ok true, set_quantized_tick_position ni1 t, this1, Some t) ∧
    notes this1 !! k = Some n ∧
    start_tick (notes this1) k = t ∧
    Note_is_note n = true ∧
    add_note ni2 this1 g2
    = (Ok true, set_quantized_tick_position ni2 t,
       set_notes this1 (<[k := Note_add_note ni2 n]> (notes this1)), Some t).
Proof.
  intros Hok Hm Hc Hquant2 Hx2.
  destruct (add_contract_tick unit this g ni1 Hok Hm Hc)
    as (t & Hq & Ht & Hdiv & Hfits).
  pose proof Hc as (Hx0 & Hx1 & Hquant & Hlen & _). pose proof Hm as [Hinv Hsup].
  pose proof (lengths_supported_positive unit _ Hok Hsup) as Hpos.
  destruct (place_note_in_measure_cases unit this
              (set_quantized_tick_position ni1 t) t)
    as (pre & e & post & Hn & Hs & He & Hcases); [done..|].
  assert (0 < num_ticks this) as Hnum.
  { unfold duration_invariant in Hinv. rewrite Hn, sum_ticks_app in Hinv.
    rewrite Hn in Hpos. apply Forall_app in Hpos as [Hp1 Hp2].
    apply Forall_cons in Hp2 as [Hp2 Hp3].
    pose proof (sum_ticks_nonneg _ Hp1). pose proof (sum_ticks_nonneg _ Hp3).
    simpl in Hinv. lia. }
  assert (0 < note_length_to_ticks (quantization ni1)) as Hqpos
    by (destruct Hok as [_ Hall]; by apply Hall).
  rewrite Hn in Hpos. apply Forall_app in Hpos as [Hpos_pre _].
  assert (∃ pre' n post',
            place_note_in_measure (set_quantized_tick_position ni1 t) this
            = (Ok tt, set_notes this (pre' ++ n :: post')) ∧
            positive_ticks pre' ∧ sum_ticks pre' = t ∧ Note_is_note n = true)
    as (pre' & n & post' & Hplace & Hpos' & Hsum' & Hnote').
  { destruct Hcases as [(Hpre & Hnote & Hplace)
      |(_ & before & after & _ & Hsb & _ & Hsumb & _ & _ & _ & Hplace)].
    - exists pre, (Note_add_note (set_quantized_tick_position ni1 t) e), post.
      split; [done|]. split; [done|]. split; [done|].
      by rewrite Note_add_note_is_note.
    - exists (pre ++ before), (placed_note ni1), (after ++ post).
      split; [by rewrite <- app_assoc|]. split.
      + apply Forall_app. split; [done|].
        by apply (lengths_supported_positive unit).
      + split; [rewrite sum_ticks_app; lia | done]. }
  exists t, (set_notes this (pre' ++ n :: post')), (length pre'), n.
  split; [unfold add_note; by rewrite Hq, Hplace|].
  split; [by apply list_lookup_middle|].
  split; [cbn [notes set_notes]; by rewrite start_tick_middle|]. split; [done|].
  unfold add_note. rewrite Hquant2, Hx2.
  rewrite (quantize_position_same _ this _ _ g2 g), Hq by done.
  unfold place_note_in_measure. cbn [notes set_notes].
  replace (S (length (pre' ++ n :: post')))
    with (length pre' + S (S (length post')))%nat
    by (rewrite length_app; simpl; lia).
  rewrite (place_loop_reach _ t _ pre' (n :: post')); [|done|done|done|lia].
  rewrite (place_loop_merge _ t _ pre' n post'); [|done|done|done|done].
  by rewrite insert_middle.
Qed.

(** ** A measure without beats *)

Lemma quantize_position_no_ticks this (quant : Z) (x : Q) (g : option Z) :
  num_ticks this = 0 →
  quantize_position this quant x g
  = (match g with Some v => Ok v | None => Throw ReferenceError end, g).
Proof.
  intros Hn.
  assert (below_num_quantized_beats this (note_length_to_ticks quant) 0 = false)
    as Hbelow.
  { unfold below_num_quantized_beats. rewrite Hn.
    destruct (note_length_to_ticks quant =? 0); [done|].
    unfold Qltb. apply negb_false_iff, Qle_bool_iff.
    change (inject_Z 0) with 0%Q. unfold Qdiv. rewrite Qmult_0_l.
    apply Qle_refl. }
  unfold quantize_position. rewrite quantize_seed_branch.
  cbn [quantize_loop]. rewrite Hbelow. by destruct g.
Qed.

(** X15.  A measure constructed with zero beats has no events, whatever the
    tick table, and no [add_note] can place anything in it: the quantizer
    assigns nothing, so the call ends with a [ReferenceError] when the global
    was never assigned and with a [TypeError] when it holds a tick from
    another measure (which is never negative); the measure stays empty. *)
Theorem add_note_zero_beats (bv : Z) ni (v : Z) :
  0 ≤ v →
  new_Measure 0 bv = (Ok tt, mk_Measure 0 bv [] 0) ∧
  add_note ni (mk_Measure 0 bv [] 0) None
  = (Throw ReferenceError, ni, mk_Measure 0 bv [] 0, None) ∧
  add_note ni (mk_Measure 0 bv [] 0) (Some v)
  = (Throw TypeError, set_quantized_tick_position ni v, mk_Measure 0 bv [] 0,
     Some v).
Proof.
  intros Hv. split; [done|].
  unfold add_note. rewrite !quantize_position_no_ticks by done.
  split; [done|].
  pose proof (place_loop_miss (set_quantized_tick_position ni v) v
                (mk_Measure 0 bv [] 0) [] eq_refl [] 0 1) as Hmiss.
  unfold place_note_in_measure. cbn [notes length] in *.
  change (Z.of_nat 0) with 0 in Hmiss.
  rewrite Hmiss; [done | done | lia | | simpl; lia].
  intros p e q Hnil. by destruct p.
Qed.

(** ** Removing a note and adding it again *)

Lemma quantize_position_num_ticks this1 this2 (quant : Z) (x : Q) (g : option Z) :
  num_ticks this1 = num_ticks this2 →
  quantize_position this1 quant x g = quantize_position this2 quant x g.
Proof.
  intros Heq. unfold quantize_position.
  rewrite !quantize_seed_branch. cbv beta iota zeta. rewrite Heq.
  by rewrite (quantize_loop_num_ticks this1 this2 _ _ Heq).
Qed.

(** X16.  Removing the only pitch of a note and adding the same request
    again gives the measure back exactly: the removal turns the note into a
    rest of its length at the same index, and the addition, whose note has
    the length of that rest, replaces the rest by the note without adding
    any rest. *)
Theorem remove_then_add_restores this ni g (t : Z) g' pre post :
  notes this = pre ++ placed_note ni :: post →
  positive_ticks pre →
  sum_ticks pre = t →
  quantize_position this (quantization ni) (x_position ni) g = (Ok t, g') →
  remove_note (set_quantized_tick_position ni t) this
  = (Ok true, set_notes this (pre ++ Rest (note_length ni) :: post)) ∧
  add_note ni (set_notes this (pre ++ Rest (note_length ni) :: post)) g
  = (Ok true, set_quantized_tick_position ni t, this, g').
Proof.
  intros Hn Hpos Ht Hquant. split.
  - unfold remove_note, bind, ret.
    rewrite (remove_note_from_measure_hit _ t this pre (placed_note ni) post);
      [|done..].
    by rewrite remove_placed_note.
  - unfold add_note.
    rewrite (quantize_position_num_ticks _ this) by done. rewrite Hquant.
    unfold place_note_in_measure. cbn [notes set_notes].
    replace (S (length (pre ++ Rest (note_length ni) :: post)))
      with (length pre + S (S (length post)))%nat
      by (rewrite length_app; simpl; lia).
    rewrite (place_loop_reach _ t _ pre (Rest (note_length ni) :: post));
      [|done|done|done|lia].
    rewrite (place_loop_replace _ t _ pre (Rest (note_length ni)) post);
      [|done..].
    unfold remove_rest_and_insert_note, bind.
    rewrite (remove_rest_middle _ pre (Rest (note_length ni)) post) by done.
    rewrite (insert_rests_after_note_ok _ (set_quantized_tick_position ni t) t _
               pre post []); [|done|done|].
    + rewrite (insert_new_note_ok _ _ pre post) by done.
      destruct this as [nb bv ns nt]. simpl in Hn. by subst ns.
    + apply fill_space_with_rests_empty. simpl. lia.
Qed.

End verification.

(** * The worked scenario and other concrete measures *)

Section worked_scenario.

Context {P : Type} `{EqDecision P} (rest : P) (translate : Z → P).

#[local] Hint Extern 0 LiveScore => exact (scenario rest translate)
  : typeclass_instances.

Lemma scenario_table_ok : table_ok sixteenth.
Proof.
  split; [by repeat constructor|].
  intros d Hd. simpl in Hd. unfold scenario_note_lengths in Hd.
  repeat (apply elem_of_cons in Hd as [->|Hd]); try (by apply elem_of_nil in Hd);
    (split; [reflexivity|]); simpl.
  - by exists 16.
  - by exists 8.
  - by exists 4.
  - by exists 2.
  - by exists 1.
Qed.

(** C2.  In the worked scenario a fresh measure of 4 quarter beats has 16
    ticks and the single event [Rest whole]; adding pitch [p] as a quarter
    note, quantized to quarters, at position 0.5 quantizes to tick 8 and
    leaves exactly [Rest half; Note quarter {p}; Rest quarter]. *)
Theorem worked_scenario_add_note (p : Z) (g : option Z) :
  new_Measure 4 quarter = (Ok tt, mk_Measure 4 quarter [Rest whole] 16) ∧
  quantize_position four_four quarter (1 # 2) g = (Ok 8, Some 8) ∧
  add_note (mk_note_info p quarter quarter (1 # 2) None) four_four g
  = (Ok true,
     mk_note_info p quarter quarter (1 # 2) (Some 8),
     mk_Measure 4 quarter
       [Rest half; Chord quarter [translate p]; Rest quarter] 16,
     Some 8).
Proof. repeat split. Qed.

(** C3, at the input where the code departs from it.  In a measure of 3
    quarter beats (12 ticks) quantized to halves (8 ticks, which does not
    divide 12), position 15/16 is 11.25 ticks: the end of the measure, tick
    12, is nearer than tick 8, and [quantize_position] returns 8. *)
Theorem quantize_position_skips_measure_end (g : option Z) :
  num_ticks three_four = 12 ∧
  note_length_to_ticks half = 8 ∧
  quantize_position three_four half (15 # 16) g = (Ok 8, Some 8) ∧
  (Qabs (12 - (15 # 16) * 12) < Qabs (8 - (15 # 16) * 12))%Q.
Proof. repeat split. Qed.

(** C4, at the input where the code departs from it.  In a measure of 2
    quarter beats (8 ticks) the beat level of tick 1 comes out as the eighth,
    whose 2 ticks do not divide 1; the sixteenth is the longest supported
    length that does. *)
Theorem calculate_beat_level_off_beat :
  num_ticks two_four = 8 ∧
  calculate_beat_level two_four 1 = eighth ∧
  js_rem_is_zero 1 (note_length_to_ticks eighth) = false ∧
  Forall (λ d, js_rem_is_zero 1 (note_length_to_ticks d) = true → d = sixteenth)
    note_lengths ∧
  js_rem_is_zero 1 (note_length_to_ticks sixteenth) = true ∧
  note_length_to_ticks sixteenth ≤ num_ticks two_four.
Proof.
  repeat split; try done. simpl.
  repeat constructor; intros ?; done.
Qed.

End worked_scenario.

(** * Instances and counterexamples, with pitches as MIDI numbers *)

Section examples.

#[local] Existing Instance midi.

Lemma midi_table_ok : table_ok sixteenth.
Proof. apply (scenario_table_ok 0 (λ p, p)). Qed.

Lemma one_note_reachable : reachable one_note.
Proof.
  eapply (reachable_add four_four (quarter_at_half 60) None).
  - by eapply (reachable_new 4 quarter); [| repeat constructor |].
  - repeat split; try (by repeat constructor).
    exists 8, (Some 8). by split.
  - reflexivity.
Qed.

(** C1, as stated, fails: a whole note added at position 0.5 of a fresh 4/4
    measure lands inside the measure, the call succeeds, and the events then
    sum to 24 ticks, not 16. *)
Lemma add_note_overlong_breaks_invariant :
  duration_invariant four_four ∧
  quantize_position four_four half (1 # 2) None = (Ok 8, Some 8) ∧
  add_note (mk_note_info 60 whole half (1 # 2) None) four_four None
  = (Ok true, mk_note_info 60 whole half (1 # 2) (Some 8),
     mk_Measure 4 quarter [Rest half; Chord whole [60]] 16, Some 8) ∧
  sum_ticks [Rest half; Chord whole [60]] = 24 ∧
  ¬ duration_invariant (mk_Measure 4 quarter [Rest half; Chord whole [60]] 16).
Proof. repeat split. intros Hinv. discriminate Hinv. Qed.

(** The measure of the worked scenario is reachable and keeps the invariant. *)
Lemma duration_invariant_reachable_witness :
  reachable one_note ∧ duration_invariant one_note.
Proof.
  split; [apply one_note_reachable|].
  apply (duration_invariant_reachable sixteenth one_note);
    [apply midi_table_ok | apply one_note_reachable].
Defined.

(** Filling ticks 4 to 16 of a 4/4 measure. *)
Lemma fill_space_with_rests_exact_witness :
  ∃ rests,
    fill_space_with_rests four_four 4 16 = Ok rests ∧
    Forall (λ n, Note_is_rest n = true) rests ∧
    sum_ticks rests = 16 - 4.
Proof.
  apply (fill_space_with_rests_exact sixteenth four_four 4 16);
    [apply midi_table_ok | lia | lia | by vm_compute | by exists 4 | by exists 16].
Defined.

(** C6, as stated, fails: for a span of 32 ticks in a 16-tick measure the
    whole note fits the ceiling and the span, yet the function returns
    [null]. *)
Lemma optimal_rest_length_long_span :
  optimal_rest_length four_four whole 32 = None ∧
  whole ∈ note_lengths ∧ whole ≤ whole ∧ note_length_to_ticks whole ≤ 32.
Proof. repeat split; [by repeat constructor | done | by simpl]. Qed.

(** C7, as stated, fails: a half note whose quantized tick is the start of
    the final quarter rest replaces it, no rest is added, and the events sum
    to 20 ticks. *)
Lemma add_note_longer_than_rest :
  start_tick (notes one_note) 2 = 12 ∧
  notes one_note !! 2%nat = Some (Rest quarter) ∧
  add_note (mk_note_info 64 half quarter (3 # 4) None) one_note None
  = (Ok true, mk_note_info 64 half quarter (3 # 4) (Some 12),
     mk_Measure 4 quarter
       [Rest half; Chord quarter [60]; Chord half [64]] 16,
     Some 12) ∧
  sum_ticks [Rest half; Chord quarter [60]; Chord half [64]] = 20.
Proof. repeat split. Qed.

(** A quarter note at position 0 of a fresh 4/4 measure replaces the whole
    rest; the remaining 12 ticks are filled with rests. *)
Lemma add_note_replaces_rest_witness :
  ∃ rests,
    fill_space_with_rests four_four (0 + note_length_to_ticks quarter)
      (0 + note_length_to_ticks whole) = Ok rests ∧
    Forall (λ n, Note_is_rest n = true) rests ∧
    sum_ticks rests = note_length_to_ticks whole - note_length_to_ticks quarter ∧
    (note_length_to_ticks quarter = note_length_to_ticks whole → rests = []) ∧
    add_note (mk_note_info 60 quarter quarter 0 None) four_four None
    = (Ok true, mk_note_info 60 quarter quarter 0 (Some 0),
       set_notes four_four
         ([] ++ placed_note (mk_note_info 60 quarter quarter 0 None)
             :: rests ++ []),
       Some 0) ∧
    duration_invariant
      (set_notes four_four
         ([] ++ placed_note (mk_note_info 60 quarter quarter 0 None)
             :: rests ++ [])).
Proof.
  apply (add_note_replaces_rest sixteenth four_four
           (mk_note_info 60 quarter quarter 0 None) None 0 (Some 0)
           [] (Rest whole) []).
  - apply midi_table_ok.
  - split; [reflexivity | by repeat constructor].
  - reflexivity.
  - reflexivity.
  - reflexivity.
  - reflexivity.
  - by repeat constructor.
  - by vm_compute.
Defined.

(** A request whose position lies outside [0, 1) leaves the quantizer's
    global as another measure set it, here at tick 16, the end of this
    measure; and a removal at tick 0, where a rest starts. *)
Lemma exhausted_scan_throws_witness :
  add_note (mk_note_info 64 half quarter 5 None) one_note (Some 16)
  = (Throw TypeError, mk_note_info 64 half quarter 5 (Some 16), one_note, Some 16) ∧
  remove_note (mk_note_info 60 quarter quarter (1 # 2) (Some 0)) one_note
  = (Throw TypeError, one_note).
Proof.
  apply (exhausted_scan_throws (mk_note_info 64 half quarter 5 None)
           (mk_note_info 60 quarter quarter (1 # 2) (Some 0))
           one_note (Some 16) 16 (Some 16)).
  - reflexivity.
  - intros [|[|[|i]]] Hi; simpl in Hi; try lia; reflexivity.
  - by vm_compute.
  - intros [|[|[|i]]] e He Hat; simpl in He; simplify_eq; try done.
Defined.

(** C9, as stated, fails: when the added pitch is merged into a note that
    holds another pitch, removing it again leaves that event a note; no
    event is replaced by a rest. *)
Lemma add_then_remove_merged_pitch :
  add_note (quarter_at_half 64) one_note None
  = (Ok true, mk_note_info 64 quarter quarter (1 # 2) (Some 8),
     mk_Measure 4 quarter
       [Rest half; Chord quarter [60; 64]; Rest quarter] 16,
     Some 8) ∧
  remove_note (mk_note_info 64 quarter quarter (1 # 2) (Some 8))
    (mk_Measure 4 quarter [Rest half; Chord quarter [60; 64]; Rest quarter] 16)
  = (Ok true, one_note) ∧
  notes one_note !! 1%nat = Some (Chord quarter [60]) ∧
  Note_is_rest (Chord quarter [60]) = false.
Proof. repeat split. Qed.

(** The worked scenario's request, added and removed again. *)
Lemma add_then_remove_note_witness :
  ∃ (t : Z) this1 this2,
    add_note (quarter_at_half 60) four_four None
    = (Ok true, set_quantized_tick_position (quarter_at_half 60) t, this1, Some t) ∧
    remove_note (set_quantized_tick_position (quarter_at_half 60) t) this1
    = (Ok true, this2) ∧
    duration_invariant this2 ∧
    ((∀ (i : nat) e, notes four_four !! i = Some e →
                     start_tick (notes four_four) i = t → Note_is_note e = false) →
     ∃ k : nat,
       start_tick (notes this1) k = t ∧
       notes this1 !! k = Some (placed_note (quarter_at_half 60)) ∧
       notes this2 = <[k := Rest (note_length (quarter_at_half 60))]> (notes this1)).
Proof.
  apply (add_then_remove_note sixteenth four_four None (quarter_at_half 60)).
  - apply midi_table_ok.
  - split; [reflexivity | by repeat constructor].
  - repeat split; try (by repeat constructor).
    exists 8, (Some 8). by split.
Defined.

(** Two removals of pitch 60 at tick 8 that differ in everything else. *)
Lemma remove_note_reads_tick_and_pitch_witness :
  remove_note (mk_note_info 60 quarter quarter (1 # 2) (Some 8)) one_note
  = remove_note (mk_note_info 60 whole sixteenth (1 # 7) (Some 8)) one_note.
Proof.
  apply (remove_note_reads_tick_and_pitch
           (mk_note_info 60 quarter quarter (1 # 2) (Some 8))
           (mk_note_info 60 whole sixteenth (1 # 7) (Some 8)) one_note);
    reflexivity.
Defined.

(** ** Instances of the further properties *)

Lemma new_Measure_all_rests_witness :
  (new_Measure 4 quarter).1 = Ok tt ∧
  num_ticks (new_Measure 4 quarter).2 = 4 * note_length_to_ticks quarter ∧
  Forall (λ n, Note_is_rest n = true) (notes (new_Measure 4 quarter).2) ∧
  lengths_supported (notes (new_Measure 4 quarter).2) ∧
  sum_ticks (notes (new_Measure 4 quarter).2) = 4 * note_length_to_ticks quarter.
Proof.
  apply (new_Measure_all_rests sixteenth 4 quarter);
    [apply midi_table_ok | lia | by repeat constructor].
Defined.


Lemma quantize_position_stale_witness :
  (∀ v, quantize_position four_four quarter 5 (Some v) = (Ok v, Some v)) ∧
  quantize_position four_four quarter 5 None = (Throw ReferenceError, None) ∧
  ∀ ni, quantization ni = quarter → x_position ni = 5%Q →
        add_note ni four_four None = (Throw ReferenceError, ni, four_four, None).
Proof.
  apply (quantize_position_stale four_four quarter 5); by vm_compute.
Defined.

Lemma fill_space_with_rests_shape_witness :
  non_increasing [Rest quarter; Rest quarter; Rest quarter] ∧
  Forall (λ n, calculate_beat_level four_four 4 ≤ Note_length n ∧
               note_length_to_ticks (Note_length n) ≤ 16 - 4)
    [Rest quarter; Rest quarter; Rest quarter].
Proof.
  apply (fill_space_with_rests_shape sixteenth four_four 4 16
           [Rest quarter; Rest quarter; Rest quarter]);
    [apply midi_table_ok | by vm_compute | reflexivity].
Defined.

Lemma remove_note_throw_unchanged_witness :
  (remove_note (mk_note_info 60 quarter quarter (1 # 2) (Some 0)) one_note).2
  = one_note.
Proof.
  apply (remove_note_throw_unchanged
           (mk_note_info 60 quarter quarter (1 # 2) (Some 0)) one_note TypeError).
  reflexivity.
Defined.

Lemma remove_note_at_note_witness :
  ∃ e',
    remove_note (mk_note_info 60 quarter quarter (1 # 2) (Some 8)) one_note
    = (Ok true, set_notes one_note ([Rest half] ++ e' :: [Rest quarter])) ∧
    Note_length e' = Note_length (Chord quarter [60]) ∧
    (60 ∉ Note_pitches e') ∧
    (Forall (λ q, q = 60) (Note_pitches (Chord quarter [60])) →
     e' = Rest (Note_length (Chord quarter [60]))) ∧
    (¬ Forall (λ q, q = 60) (Note_pitches (Chord quarter [60])) →
     Note_is_note e' = true ∧
     Note_pitches e' = filter (λ q, q ≠ 60) (Note_pitches (Chord quarter [60]))).
Proof.
  apply (remove_note_at_note (live_score := midi)
           (mk_note_info 60 quarter quarter (1 # 2) (Some 8))
           one_note [Rest half] (Chord (live_score := midi) quarter [60])
           [Rest quarter]).
  - reflexivity.
  - by repeat constructor.
  - reflexivity.
  - reflexivity.
Defined.

Lemma add_note_merges_pitch_witness :
  add_note (mk_note_info 64 whole quarter (1 # 2) None) one_note None
  = (Ok true, mk_note_info 64 whole quarter (1 # 2) (Some 8),
     set_notes one_note
       ([Rest half]
        ++ Note_add_note (mk_note_info 64 whole quarter (1 # 2) None)
             (Chord quarter [60]) :: [Rest quarter]),
     Some 8) ∧
  Note_length (Note_add_note (mk_note_info 64 whole quarter (1 # 2) None)
                 (Chord quarter [60]))
  = Note_length (Chord quarter [60]) ∧
  64 ∈ Note_pitches (Note_add_note (mk_note_info 64 whole quarter (1 # 2) None)
                       (Chord quarter [60])) ∧
  ∀ p, p ∈ Note_pitches (Chord quarter [60]) →
       p ∈ Note_pitches (Note_add_note (mk_note_info 64 whole quarter (1 # 2) None)
                           (Chord quarter [60])).
Proof.
  apply (add_note_merges_pitch (live_score := midi) one_note
           (mk_note_info 64 whole quarter (1 # 2) None) None 8 (Some 8)
           [Rest half] (Chord (live_score := midi) quarter [60]) [Rest quarter]).
  - reflexivity.
  - reflexivity.
  - by repeat constructor.
  - reflexivity.
  - reflexivity.
Defined.

Lemma add_note_splits_event_witness :
  ∃ before after,
    add_note (quarter_at_half 60) four_four None
    = (Ok true, set_quantized_tick_position (quarter_at_half 60) 8,
       set_notes four_four
         ([] ++ before ++ placed_note (quarter_at_half 60) :: after ++ []),
       Some 8) ∧
    Forall (λ n, Note_is_rest n = true) (before ++ after) ∧
    before ≠ [] ∧
    sum_ticks before = 8 - sum_ticks [] ∧
    sum_ticks after
    = sum_ticks [] + note_length_to_ticks (Note_length (Rest whole))
      - (8 + note_length_to_ticks (note_length (quarter_at_half 60))) ∧
    duration_invariant
      (set_notes four_four
         ([] ++ before ++ placed_note (quarter_at_half 60) :: after ++ [])).
Proof.
  apply (add_note_splits_event sixteenth four_four (quarter_at_half 60) None 8
           (Some 8) [] (Rest whole) []).
  - apply midi_table_ok.
  - split; [reflexivity | by repeat constructor].
  - reflexivity.
  - reflexivity.
  - by vm_compute.
  - by exists 8.
  - by repeat constructor.
  - by vm_compute.
Defined.

Lemma add_note_overflows_rest_witness :
  add_note (mk_note_info 64 half quarter (3 # 4) None) one_note None
  = (Ok true, mk_note_info 64 half quarter (3 # 4) (Some 12),
     set_notes one_note
       ([Rest half; Chord quarter [60]]
        ++ placed_note (mk_note_info 64 half quarter (3 # 4) None) :: []),
     Some 12) ∧
  sum_ticks ([Rest half; Chord quarter [60]]
             ++ placed_note (mk_note_info 64 half quarter (3 # 4) None) :: [])
  = sum_ticks (notes one_note)
    + (note_length_to_ticks half - note_length_to_ticks (Note_length (Rest quarter))).
Proof.
  apply (add_note_overflows_rest (live_score := midi) one_note
           (mk_note_info 64 half quarter (3 # 4) None) None 12 (Some 12)
           [Rest half; Chord (live_score := midi) quarter [60]] (Rest quarter) []).
  - reflexivity.
  - reflexivity.
  - by repeat constructor.
  - reflexivity.
  - reflexivity.
  - by vm_compute.
Defined.

Lemma quarter_at_half_contract : add_contract four_four None (quarter_at_half 60).
Proof.
  repeat split; try (by repeat constructor).
  exists 8, (Some 8). by split.
Qed.

Lemma four_four_ok : measure_ok four_four.
Proof. split; [reflexivity | by repeat constructor]. Qed.

Lemma add_note_local_witness :
  ∃ (t : Z) pre e post before n after,
    notes four_four = pre ++ e :: post ∧
    add_note (quarter_at_half 60) four_four None
    = (Ok true, set_quantized_tick_position (quarter_at_half 60) t,
       set_notes four_four (pre ++ before ++ n :: after ++ post), Some t) ∧
    Forall (λ r, Note_is_rest r = true) (before ++ after) ∧
    Note_is_note n = true ∧
    60 ∈ Note_pitches n ∧
    sum_ticks (pre ++ before) = t ∧
    sum_ticks (before ++ n :: after) = note_length_to_ticks (Note_length e).
Proof.
  exact (add_note_local sixteenth four_four None (quarter_at_half 60)
           midi_table_ok four_four_ok quarter_at_half_contract).
Defined.

Lemma reachable_event_count_witness :
  lengths_supported (notes one_note) ∧
  Z.of_nat (length (notes one_note)) ≤ num_ticks one_note.
Proof.
  apply (reachable_event_count sixteenth one_note);
    [apply midi_table_ok | apply one_note_reachable].
Defined.

Lemma add_note_twice_builds_chord_witness :
  ∃ (t : Z) this1 (k : nat) n,
    add_note (quarter_at_half 60) four_four None
    = (Ok true, set_quantized_tick_position (quarter_at_half 60) t, this1, Some t) ∧
    notes this1 !! k = Some n ∧
    start_tick (notes this1) k = t ∧
    Note_is_note n = true ∧
    add_note (mk_note_info 64 whole quarter (1 # 2) None) this1 (Some 3)
    = (Ok true,
       set_quantized_tick_position (mk_note_info 64 whole quarter (1 # 2) None) t,
       set_notes this1
         (<[k := Note_add_note (mk_note_info 64 whole quarter (1 # 2) None) n]>
            (notes this1)),
       Some t).
Proof.
  apply (add_note_twice_builds_chord sixteenth four_four None (quarter_at_half 60)
           (mk_note_info 64 whole quarter (1 # 2) None) (Some 3));
    [apply midi_table_ok | apply four_four_ok | apply quarter_at_half_contract
    | reflexivity | reflexivity].
Defined.

Lemma add_note_zero_beats_witness :
  new_Measure 0 quarter = (Ok tt, mk_Measure 0 quarter [] 0) ∧
  add_note (quarter_at_half 60) (mk_Measure 0 quarter [] 0) None
  = (Throw ReferenceError, quarter_at_half 60, mk_Measure 0 quarter [] 0, None) ∧
  add_note (quarter_at_half 60) (mk_Measure 0 quarter [] 0) (Some 8)
  = (Throw TypeError, set_quantized_tick_position (quarter_at_half 60) 8,
     mk_Measure 0 quarter [] 0, Some 8).
Proof. apply (add_note_zero_beats quarter (quarter_at_half 60) 8). lia. Defined.

Lemma remove_then_add_restores_witness :
  remove_note (set_quantized_tick_position (quarter_at_half 60) 8) one_note
  = (Ok true,
     set_notes one_note
       ([Rest half] ++ Rest (note_length (quarter_at_half 60)) :: [Rest quarter])) ∧
  add_note (quarter_at_half 60)
    (set_notes one_note
       ([Rest half] ++ Rest (note_length (quarter_at_half 60)) :: [Rest quarter]))
    None
  = (Ok true, set_quantized_tick_position (quarter_at_half 60) 8, one_note, Some 8).
Proof.
  apply (remove_then_add_restores one_note (quarter_at_half 60) None 8 (Some 8)
           [Rest half] [Rest quarter]).
  - reflexivity.
  - by repeat constructor.
  - reflexivity.
  - reflexivity.
Defined.

End examples.
